(** * Tone.Part: a collection of Tone.Events started, stopped and looped as a unit

    A shallow embedding of [Tone/event/Part.js].  The group ([Part]) owns a
    Timeline of start/stop records and an array of child events; every public
    method is a function from the world (caller heap, the group, the objects
    it dropped, the user callback's invocations) to a [result], an uncaught
    [TypeError] being the only way a method of this file faults.

    [Tone.TimelineState] and [Tone.Event] are collaborators whose code is not
    part of [Part.js]; they are modelled in [Module Timeline] and
    [Module Event] from the specification's description of them. *)

From Stdlib Require Import ZArith QArith Lia DecimalString.
From stdpp Require Import base option list gmap strings pretty.
Local Open Scope Z_scope.

(** ** JavaScript values *)

(** Heap addresses of caller-owned plain objects. *)
Definition loc := nat.

(** The values that flow through [Part.js]: [undefined], booleans, numbers,
    strings (time notation such as ["0:2"]) and references to plain objects. *)
Inductive jsval :=
  | VUndef
  | VBool (b : bool)
  | VNum (n : Z)
  | VStr (s : string)
  | VObj (l : loc).

#[global] Instance jsval_eq_dec : EqDecision jsval.
Proof. solve_decision. Defined.

(** A plain object is a finite map from property names to values; the heap
    maps addresses to objects, so two references to one address alias. *)
Abbreviation obj := (gmap string jsval).
Abbreviation heap_t := (gmap loc obj).

(** [this.isUndef(v)] *)
Definition isUndef (v : jsval) : bool :=
  match v with VUndef => true | _ => false end.

(** [this.defaultArg(given, fallback)] *)
Definition defaultArg (given fallback : jsval) : jsval :=
  if isUndef given then fallback else given.

(** [a === b]: primitives compare by value, objects by reference. *)
Definition strict_eq (a b : jsval) : bool := bool_decide (a = b).

(** Truthiness, as tested by [if (this._loop)]. *)
Definition truthy (v : jsval) : bool :=
  match v with
  | VUndef => false
  | VBool b => b
  | VNum n => negb (n =? 0)
  | VStr s => negb (bool_decide (s = EmptyString))
  | VObj _ => true
  end.

(** [this.isObject(v) && v.hasOwnProperty("time")]: the object behind [v],
    its address and its [time] property, when [v] is such an object. *)
Definition own_time (h : heap_t) (v : jsval) : option (loc * obj * jsval) :=
  match v with
  | VObj l =>
      match h !! l with
      | Some o =>
          match o !! "time"%string with
          | Some t => Some (l, o, t)
          | None => None
          end
      | None => None
      end
  | _ => None
  end.

(** [Tone.State] *)
Inductive State := Started | Stopped.

#[global] Instance State_eq_dec : EqDecision State.
Proof. solve_decision. Defined.

(** ** Uncaught exceptions *)

Inductive exn := TypeError.

Inductive result (A : Type) :=
  | Ok (a : A)
  | Throw (e : exn).
Arguments Ok {A} a.
Arguments Throw {A} e.

#[global] Instance result_ret : MRet result := λ A, Ok.
#[global] Instance result_bind : MBind result := λ A B f m,
  match m with
  | Ok a => f a
  | Throw e => Throw e
  end.

(** Dereferencing [null] or [undefined]. *)
Definition deref {A} (o : option A) : result A :=
  match o with
  | Some a => Ok a
  | None => Throw TypeError
  end.

(** ** Timeline *)

Module Timeline.

(** Modelled from the spec: [Tone.TimelineState] is not part of [Part.js].
    A record of the log: the state that takes effect at tick [time], and the
    playback offset captured by a [Started] record. *)
Record record := mk { state : State; time : Z; offset : Z }.

(** Modelled from the spec: [Tone.TimelineState] is not part of [Part.js].
    The log is a sequence of records ordered by tick. *)
Abbreviation t := (list record).

(** Modelled from the spec: [Tone.TimelineState] is not part of [Part.js].
    [addEvent] inserts keeping the sequence ordered by tick; among records
    of one tick the last written comes last, and so wins. *)
Fixpoint addEvent (r : record) (tl : t) : t :=
  match tl with
  | [] => [r]
  | x :: tl' => if time x <=? time r then x :: addEvent r tl' else r :: x :: tl'
  end.

(** Modelled from the spec: [Tone.TimelineState] is not part of [Part.js].
    [setStateAtTime] is [addEvent] with a bare state change. *)
Definition setStateAtTime (s : State) (tick : Z) (tl : t) : t :=
  addEvent (mk s tick 0) tl.

(** Modelled from the spec: [Tone.TimelineState] is not part of [Part.js].
    The search behind both lookups: the last record with tick [<=] the
    query, walking the ordered sequence until a later tick is met. *)
Fixpoint search (found : option record) (tl : t) (tick : Z) : option record :=
  match tl with
  | [] => found
  | x :: tl' => if time x <=? tick then search (Some x) tl' tick else found
  end.

(** Modelled from the spec: [Tone.TimelineState] is not part of [Part.js].
    [getEvent] returns the full record in force at the query tick. *)
Definition getEvent (tl : t) (tick : Z) : option record := search None tl tick.

(** Modelled from the spec: [Tone.TimelineState] is not part of [Part.js].
    [getStateAtTime] is the state of that record, [Stopped] if there is
    none. *)
Definition getStateAtTime (tl : t) (tick : Z) : State :=
  match getEvent tl tick with
  | Some r => state r
  | None => Stopped
  end.

(** Modelled from the spec: [Tone.TimelineState] is not part of [Part.js].
    [cancel] removes every record with tick [> after] and never one at or
    before the boundary. *)
Definition cancel (after : Z) (tl : t) : t :=
  filter (λ r, time r ≤ after) tl.

(** Modelled from the spec: [Tone.TimelineState] is not part of [Part.js].
    [dispose] releases all records. *)
Definition dispose (tl : t) : t := [].

End Timeline.

(** ** ScheduledEvent *)

Module Event.

(** The method calls a child receives from its group, latest first. *)
Inductive call :=
  | Start (tick offset : Z)
  | Stop (tick : Z)
  | Cancel (after : option Z)
  | Dispose.

(** What a child's trigger invokes: nothing ([Tone.noOp]), the owning
    group's [_tick], or a function of the caller's. *)
Inductive handler := NoOp | BoundTick | Foreign (f : nat).

(** Modelled from the spec: [Tone.Event] is not part of [Part.js].  A child
    carries a value, a start offset, loop parameters, probability, humanize
    and playback rate, and its own log of start/stop records. *)
Record t := mk {
  callback : handler;
  value : jsval;
  startOffset : Z;
  loop : jsval;
  _loopStart : Z;
  _loopEnd : Z;
  humanize : jsval;
  playbackRate : Q;
  probability : Q;
  _state : Timeline.t;
  disposed : bool;
  calls : list call
}.

Definition set_callback (h : handler) (e : t) : t :=
  mk h (value e) (startOffset e) (loop e) (_loopStart e) (_loopEnd e)
     (humanize e) (playbackRate e) (probability e) (_state e) (disposed e) (calls e).
Definition set_value (v : jsval) (e : t) : t :=
  mk (callback e) v (startOffset e) (loop e) (_loopStart e) (_loopEnd e)
     (humanize e) (playbackRate e) (probability e) (_state e) (disposed e) (calls e).
Definition set_startOffset (z : Z) (e : t) : t :=
  mk (callback e) (value e) z (loop e) (_loopStart e) (_loopEnd e)
     (humanize e) (playbackRate e) (probability e) (_state e) (disposed e) (calls e).
Definition set_loop (l : jsval) (e : t) : t :=
  mk (callback e) (value e) (startOffset e) l (_loopStart e) (_loopEnd e)
     (humanize e) (playbackRate e) (probability e) (_state e) (disposed e) (calls e).
Definition set_loopStart (z : Z) (e : t) : t :=
  mk (callback e) (value e) (startOffset e) (loop e) z (_loopEnd e)
     (humanize e) (playbackRate e) (probability e) (_state e) (disposed e) (calls e).
Definition set_loopEnd (z : Z) (e : t) : t :=
  mk (callback e) (value e) (startOffset e) (loop e) (_loopStart e) z
     (humanize e) (playbackRate e) (probability e) (_state e) (disposed e) (calls e).
Definition set_humanize (h : jsval) (e : t) : t :=
  mk (callback e) (value e) (startOffset e) (loop e) (_loopStart e) (_loopEnd e)
     h (playbackRate e) (probability e) (_state e) (disposed e) (calls e).
Definition set_playbackRate (r : Q) (e : t) : t :=
  mk (callback e) (value e) (startOffset e) (loop e) (_loopStart e) (_loopEnd e)
     (humanize e) r (probability e) (_state e) (disposed e) (calls e).
Definition set_probability (p : Q) (e : t) : t :=
  mk (callback e) (value e) (startOffset e) (loop e) (_loopStart e) (_loopEnd e)
     (humanize e) (playbackRate e) p (_state e) (disposed e) (calls e).

(** A method call updates the child's own log and is recorded. *)
Definition called (c : call) (tl : Timeline.t) (gone : bool) (e : t) : t :=
  mk (callback e) (value e) (startOffset e) (loop e) (_loopStart e) (_loopEnd e)
     (humanize e) (playbackRate e) (probability e) tl gone (c :: calls e).

(** Modelled from the spec: [Tone.Event] is not part of [Part.js].
    [new Tone.Event({callback, value})] with the remaining options at their
    defaults; [loopEnd] is the default loop length in ticks. *)
Definition create (h : handler) (v : jsval) (loopEnd : Z) : t :=
  mk h v 0 (VBool false) 0 loopEnd (VBool false) 1%Q 1%Q [] false [].

(** Modelled from the spec: [Tone.Event] is not part of [Part.js].
    [start(tick, offset)] schedules the trigger at [tick + offset]; it is a
    no-op when the child is already started at that tick.  An omitted
    offset is [0]. *)
Definition start (tick : Z) (offset : option Z) (e : t) : t :=
  let off := default 0 offset in
  match Timeline.getStateAtTime (_state e) tick with
  | Started => called (Start tick off) (_state e) (disposed e) e
  | Stopped =>
      called (Start tick off)
             (Timeline.addEvent (Timeline.mk Started tick off) (_state e))
             (disposed e) e
  end.

(** Modelled from the spec: [Tone.Event] is not part of [Part.js].
    [stop(tick)] mirrors the Timeline: it records [Stopped] when the child
    is started at that tick. *)
Definition stop (tick : Z) (e : t) : t :=
  match Timeline.getStateAtTime (_state e) tick with
  | Started =>
      called (Stop tick) (Timeline.setStateAtTime Stopped tick (_state e)) (disposed e) e
  | Stopped => called (Stop tick) (_state e) (disposed e) e
  end.

(** Modelled from the spec: [Tone.Event] is not part of [Part.js].
    [cancel(after)] removes the records, and with them the pending
    triggers, after the bound; called without a bound it removes all. *)
Definition cancel (after : option Z) (e : t) : t :=
  match after with
  | Some a => called (Cancel after) (Timeline.cancel a (_state e)) (disposed e) e
  | None => called (Cancel after) [] (disposed e) e
  end.

(** Modelled from the spec: [Tone.Event] is not part of [Part.js].
    [dispose()] releases the child's records. *)
Definition dispose (e : t) : t :=
  called Dispose (Timeline.dispose (_state e)) true e.

(** Modelled from the spec: [Tone.Event] is not part of [Part.js].
    The [state] property: the child's state at the external clock's tick. *)
Definition state (e : t) (transportTicks : Z) : State :=
  Timeline.getStateAtTime (_state e) transportTicks.

(** Modelled from the spec: [Tone.Event] is not part of [Part.js].
    The ticks at which the child's trigger is scheduled, one for every start
    it still records: [tick + offset] in the child's own frame, which begins
    at the child's start offset (the notes at [0], [96] and [144] of a part
    started at [0] fire at [0], [96] and [144]). *)
Definition triggers (e : t) : list Z :=
  (λ r, Timeline.time r + Timeline.offset r + startOffset e)
    <$> filter (λ r, Timeline.state r = Started) (_state e).

(** A dormant child has no trigger scheduled. *)
Definition dormant (e : t) : Prop := triggers e = [].

End Event.

(** ** The external clock *)

(** The readings [Part.js] takes of its environment: [this.now()] and
    [Tone.Transport.ticks]. *)
Record Clock := mkClock { now : Z; transport_ticks : Z }.

(** ** The group *)

(** The fields set up by the constructor [Tone.Part]; [_state], [_events] and
    [callback] are [null] once the group is disposed. *)
Record Part := mkPart {
  _loop : jsval;
  _loopStart : Z;
  _loopEnd : Z;
  _playbackRate : Q;
  _probability : Q;
  _humanize : jsval;
  _startOffset : Z;
  _state : option Timeline.t;
  _events : option (list Event.t);
  callback : option nat;
  mute : bool
}.

(** The world a method runs in: the caller's heap, the group ([this]), the
    children the group has let go of (latest first), and the invocations
    [(time, value)] of the user callback (latest first). *)
Record World := mkWorld {
  heap : heap_t;
  this : Part;
  dropped : list Event.t;
  fired : list (Q * jsval)
}.

Definition on_this (f : Part → Part) (w : World) : World :=
  mkWorld (heap w) (f (this w)) (dropped w) (fired w).

(** Assignments to the fields of [this]. *)
Definition assign_loop (v : jsval) : World → World :=
  on_this (λ p, mkPart v (_loopStart p) (_loopEnd p) (_playbackRate p) (_probability p)
                       (_humanize p) (_startOffset p) (_state p) (_events p) (callback p) (mute p)).
Definition assign_loopStart (z : Z) : World → World :=
  on_this (λ p, mkPart (_loop p) z (_loopEnd p) (_playbackRate p) (_probability p)
                       (_humanize p) (_startOffset p) (_state p) (_events p) (callback p) (mute p)).
Definition assign_loopEnd (z : Z) : World → World :=
  on_this (λ p, mkPart (_loop p) (_loopStart p) z (_playbackRate p) (_probability p)
                       (_humanize p) (_startOffset p) (_state p) (_events p) (callback p) (mute p)).
Definition assign_playbackRate (r : Q) : World → World :=
  on_this (λ p, mkPart (_loop p) (_loopStart p) (_loopEnd p) r (_probability p)
                       (_humanize p) (_startOffset p) (_state p) (_events p) (callback p) (mute p)).
Definition assign_probability (q : Q) : World → World :=
  on_this (λ p, mkPart (_loop p) (_loopStart p) (_loopEnd p) (_playbackRate p) q
                       (_humanize p) (_startOffset p) (_state p) (_events p) (callback p) (mute p)).
Definition assign_humanize (v : jsval) : World → World :=
  on_this (λ p, mkPart (_loop p) (_loopStart p) (_loopEnd p) (_playbackRate p) (_probability p)
                       v (_startOffset p) (_state p) (_events p) (callback p) (mute p)).
Definition assign_startOffset (z : Z) : World → World :=
  on_this (λ p, mkPart (_loop p) (_loopStart p) (_loopEnd p) (_playbackRate p) (_probability p)
                       (_humanize p) z (_state p) (_events p) (callback p) (mute p)).
Definition assign_state (tl : option Timeline.t) : World → World :=
  on_this (λ p, mkPart (_loop p) (_loopStart p) (_loopEnd p) (_playbackRate p) (_probability p)
                       (_humanize p) (_startOffset p) tl (_events p) (callback p) (mute p)).
Definition assign_events (evs : option (list Event.t)) : World → World :=
  on_this (λ p, mkPart (_loop p) (_loopStart p) (_loopEnd p) (_playbackRate p) (_probability p)
                       (_humanize p) (_startOffset p) (_state p) evs (callback p) (mute p)).
Definition assign_callback (f : option nat) : World → World :=
  on_this (λ p, mkPart (_loop p) (_loopStart p) (_loopEnd p) (_playbackRate p) (_probability p)
                       (_humanize p) (_startOffset p) (_state p) (_events p) f (mute p)).
Definition assign_mute (b : bool) : World → World :=
  on_this (λ p, mkPart (_loop p) (_loopStart p) (_loopEnd p) (_playbackRate p) (_probability p)
                       (_humanize p) (_startOffset p) (_state p) (_events p) (callback p) b).

Definition assign_heap (h : heap_t) (w : World) : World :=
  mkWorld h (this w) (dropped w) (fired w).

(** A child the group no longer references. *)
Definition release (e : Event.t) (w : World) : World :=
  mkWorld (heap w) (this w) (e :: dropped w) (fired w).

(** An invocation [this.callback(time, value)]. *)
Definition invoke (time : Q) (value : jsval) (w : World) : World :=
  mkWorld (heap w) (this w) (dropped w) ((time, value) :: fired w).

(** [this._events] and [this._state], about to be dereferenced. *)
Definition events_of (w : World) : result (list Event.t) := deref (_events (this w)).
Definition state_of (w : World) : result Timeline.t := deref (_state (this w)).

(** A child is an object: a method that mutates the child at index [i] is
    seen through the array. *)
Definition set_event (i : nat) (e : Event.t) (w : World) : World :=
  assign_events (<[i:=e]> <$> _events (this w)) w.

(** The second argument of [add]: a [Tone.Event] ([value instanceof
    Tone.Event]) or any other value. *)
Inductive addval :=
  | Raw (v : jsval)
  | Child (e : Event.t).

(** ** The methods of [Tone.Part] *)

Section Methods.

(** [this.toTicks]: the time-notation conversion service. *)
Variable toTicks : jsval → Z.

(** [_forEach]: [for (var i = this._events.length - 1; i >= 0; i--)
    callback.call(this, this._events[i], i)].  The array is read afresh at
    every index, so the callback may mutate it; the element read at an
    index the array no longer has is [undefined], which every callback of
    this file dereferences first.  The loop also yields the calls it made
    to the callback, in order. *)
Fixpoint forEach_loop (callback : Event.t → nat → World → result World)
    (n : nat) (w : World) : result (list (nat * Event.t) * World) :=
  match n with
  | O => Ok ([], w)
  | S i =>
      evs ← events_of w;
      event ← deref (evs !! i);
      w' ← callback event i w;
      r ← forEach_loop callback i w';
      Ok ((i, event) :: r.1, r.2)
  end.

Definition _forEach (callback : Event.t → nat → World → result World)
    (w : World) : result World :=
  evs ← events_of w;
  r ← forEach_loop callback (length evs) w;
  Ok r.2.

(** The calls [_forEach] makes to its callback: index and element. *)
Definition _forEach_visits (callback : Event.t → nat → World → result World)
    (w : World) : result (list (nat * Event.t)) :=
  evs ← events_of w;
  r ← forEach_loop callback (length evs) w;
  Ok r.1.

(** [_startNote]: start the child at the right time given the ticks, the
    offset and the looping; [this] is [p].  The method mutates only its
    event, and returns it here. *)
Definition _startNote (p : Part) (event : Event.t) (ticks offset : Z) : Event.t :=
  let startTick := ticks + offset in
  if truthy (_loop p) then
    let eventStartOffset := Event.startOffset event - _startOffset p in
    if (_loopStart p <=? eventStartOffset) && (eventStartOffset <? _loopEnd p)
    then Event.start startTick (Some (_startOffset p)) event
    else event
  else Event.start startTick None event.

(** [start(time, offset)] *)
Definition start (time offset : jsval) (w : World) : result World :=
  let ticks := toTicks time in
  tl ← state_of w;
  if decide (Timeline.getStateAtTime tl ticks ≠ Started) then
    let offset := defaultArg offset (VNum 0) in
    let offset := toTicks offset in
    let w := assign_state (Some (Timeline.addEvent (Timeline.mk Started ticks offset) tl)) w in
    _forEach (λ event i w, Ok (set_event i (_startNote (this w) event ticks offset) w)) w
  else Ok w.


Definition set_startOffset (offset : Z) (w : World) : result World :=
  let w := assign_startOffset offset w in
  _forEach (λ event i w,
    Ok (set_event i (Event.set_startOffset (Event.startOffset event + offset) event) w)) w.

(** [stop(time)] *)
Definition stop (time : jsval) (w : World) : result World :=
  let ticks := toTicks time in
  tl ← state_of w;
  if decide (Timeline.getStateAtTime tl ticks = Started) then
    let w := assign_state (Some (Timeline.setStateAtTime Stopped ticks tl)) w in
    _forEach (λ event i w, Ok (set_event i (Event.stop (toTicks time) event) w)) w
  else Ok w.

(** [_restartEvent]: start the child if the group is started now. *)
Definition _restartEvent (p : Part) (c : Clock) (event : Event.t) : result Event.t :=
  tl ← deref (_state p);
  match Timeline.getEvent tl (now c) with
  | Some stateEvent =>
      if decide (Timeline.state stateEvent = Started)
      then Ok (_startNote p event (Timeline.time stateEvent) (Timeline.offset stateEvent))
      else Ok event
  | None => Ok event
  end.

(** [add(time, value)] *)
Definition add (time : jsval) (value : addval) (c : Clock) (w : World) : result World :=
  (* extract the parameters *)
  let '(time, value, w) :=
    match own_time (heap w) time with
    | Some (l, o, t) =>
        (t, Raw (VObj l), assign_heap (<[l := delete "time"%string o]> (heap w)) w)
    | None => (time, value, w)
    end in
  let time := toTicks time in
  let event :=
    match value with
    | Child e => Event.set_callback Event.BoundTick e
    | Raw v => Event.create Event.BoundTick v (toTicks (VStr "1m"))
    end in
  (* the start offset *)
  let event := Event.set_startOffset time event in
  (* initialize the values *)
  let p := this w in
  let event := Event.set_loopEnd (_loopEnd p - _loopStart p) event in
  let event := Event.set_loop (_loop p) event in
  let event := Event.set_humanize (_humanize p) event in
  let event := Event.set_playbackRate (_playbackRate p) event in
  let event := Event.set_probability (_probability p) event in
  evs ← events_of w;
  let w := assign_events (Some (evs ++ [event])) w in
  (* start the note if it should be played right now *)
  event' ← _restartEvent (this w) c event;
  Ok (set_event (length evs) event' w).

(** [remove(time, value)]: the parameters it extracts, the callback it
    hands to [_forEach], and the method. *)
Definition remove_args (h : heap_t) (time value : jsval) : jsval * jsval :=
  match own_time h time with
  | Some (l, o, t) => (t, VObj l)
  | None => (time, value)
  end.

Definition remove_callback (time : Z) (value : jsval)
    (event : Event.t) (index : nat) (w : World) : result World :=
  if decide (Event.startOffset event = time) then
    if isUndef value || (negb (isUndef value) && strict_eq (Event.value event) value)
    then
      let w := assign_events (delete index <$> _events (this w)) w in
      Ok (release (Event.dispose event) w)
    else Ok w
  else Ok w.

Definition remove (time value : jsval) (w : World) : result World :=
  (* extract the parameters *)
  let '(time, value) := remove_args (heap w) time value in
  let time := toTicks time in
  _forEach (remove_callback time value) w.

(** [removeAll()] *)
Definition removeAll (w : World) : result World :=
  w ← _forEach (λ event i w, Ok (set_event i (Event.dispose event) w)) w;
  evs ← events_of w;
  Ok (assign_events (Some [])
        (mkWorld (heap w) (this w) (evs ++ dropped w) (fired w))).

(** [cancel(after)] *)
Definition cancel (after : Z) (w : World) : result World :=
  w ← _forEach (λ event i w, Ok (set_event i (Event.cancel (Some after) event) w)) w;
  tl ← state_of w;
  Ok (assign_state (Some (Timeline.cancel after tl)) w).

(** [_setAll(attr, value)]: the assignment [event[attr] = value] is
    [assign]. *)
Definition _setAll (assign : Event.t → Event.t) (w : World) : result World :=
  _forEach (λ event i w, Ok (set_event i (assign event) w)) w.

(** [_tick(time, value)]: the callback bound to every child. *)
Definition _tick (time : Q) (value : jsval) (c : Clock) (w : World) : result World :=
  if negb (mute (this w)) then
    tl ← state_of w;
    if decide (Timeline.getStateAtTime tl (transport_ticks c) = Started) then
      _ ← deref (callback (this w));
      Ok (invoke time value w)
    else Ok w
  else Ok w.

(** [_testLoopBoundries]: whether the child should be looping given the
    loop boundaries of [p]. *)
Definition _testLoopBoundries (p : Part) (c : Clock) (event : Event.t) : result Event.t :=
  let eventStartOffset := Event.startOffset event - _startOffset p in
  if (eventStartOffset <? _loopStart p) || (_loopEnd p <=? eventStartOffset) then
    Ok (Event.cancel None event)
  else
    (* reschedule it if it's stopped *)
    if decide (Event.state event (transport_ticks c) = Stopped)
    then _restartEvent p c event
    else Ok event.

(** The [probability], [humanize] and [playbackRate] setters. *)
Definition set_probability (prob : Q) (w : World) : result World :=
  let w := assign_probability prob w in
  _setAll (Event.set_probability prob) w.

Definition set_humanize (variation : jsval) (w : World) : result World :=
  let w := assign_humanize variation w in
  _setAll (Event.set_humanize variation) w.

Definition set_playbackRate (rate : Q) (w : World) : result World :=
  let w := assign_playbackRate rate w in
  _setAll (Event.set_playbackRate rate) w.

(** The [loop] setter. *)
Definition set_loop (loop : jsval) (c : Clock) (w : World) : result World :=
  let w := assign_loop loop w in
  _forEach (λ event i w,
    let p := this w in
    let event := Event.set_loopStart 0 event in
    let event := Event.set_loopEnd (_loopEnd p - _loopStart p) event in
    let event := Event.set_loop loop event in
    event ← _testLoopBoundries p c event;
    Ok (set_event i event w)) w.

(** The [loopEnd] setter. *)
Definition set_loopEnd (loopEnd : jsval) (c : Clock) (w : World) : result World :=
  let w := assign_loopEnd (toTicks loopEnd) w in
  if truthy (_loop (this w)) then
    _forEach (λ event i w,
      let p := this w in
      let event := Event.set_loopEnd (_loopEnd p - _loopStart p) event in
      event ← _testLoopBoundries p c event;
      Ok (set_event i event w)) w
  else Ok w.

(** The [loopStart] setter. *)
Definition set_loopStart (loopStart : jsval) (c : Clock) (w : World) : result World :=
  let w := assign_loopStart (toTicks loopStart) w in
  if truthy (_loop (this w)) then
    _forEach (λ event i w,
      let p := this w in
      let event := Event.set_loopEnd (_loopEnd p - _loopStart p) event in
      event ← _testLoopBoundries p c event;
      Ok (set_event i event w)) w
  else Ok w.

(** The [length] property. *)
Definition get_length (w : World) : result nat :=
  evs ← events_of w;
  Ok (length evs).

(** [dispose()] *)
Definition dispose (w : World) : result World :=
  w ← removeAll w;
  tl ← state_of w;
  let w := assign_state (Some (Timeline.dispose tl)) w in
  let w := assign_state None w in
  let w := assign_callback None w in
  Ok (assign_events None w).

(** Modelled from the spec: the external clock and the trigger of a
    [Tone.Event] are not part of [Part.js].  At the tick of a scheduled
    trigger the clock invokes the child [event], which it holds itself: the
    child draws a uniform random value and, when it is below its
    probability, invokes its callback with the (humanized) time and its
    value. *)
Definition trigger (event : Event.t) (draw time : Q) (c : Clock) (w : World)
    : result World :=
  if bool_decide (transport_ticks c ∈ Event.triggers event)
     && negb (Qle_bool (Event.probability event) draw)
  then
    match Event.callback event with
    | Event.BoundTick => _tick time (Event.value event) c w
    | _ => Ok w
    end
  else Ok w.

(** [this.ticksToSeconds]: the duration of a number of ticks, in seconds. *)
Variable ticksToSeconds : Z → Q.

(** The number [ticks] followed by ["i"], the notation for a time in ticks
    ([time + "i"]). *)
Definition ticks_notation (ticks : Z) : jsval := VStr (pretty ticks +:+ "i").

(** [at(time, value)], for a value that is not a [Tone.Event].  The search
    [for (var i = 0; i < this._events.length; i++)] returns the first child
    whose start offset is less than one tick's duration away from the time,
    with its index.  The method returns the child it found or made, [null]
    when there is none. *)
Fixpoint at_search (time : Z) (tickTime : Q) (i : nat) (events : list Event.t)
    : option (nat * Event.t) :=
  match events with
  | [] => None
  | event :: rest =>
      if negb (Qle_bool tickTime (inject_Z (Z.abs (time - Event.startOffset event))))
      then Some (i, event)
      else at_search time tickTime (S i) rest
  end.

Definition at_ (time value : jsval) (c : Clock) (w : World)
    : result (option Event.t * World) :=
  let time := toTicks time in
  let tickTime := ticksToSeconds 1 in
  evs ← events_of w;
  match at_search time tickTime 0 evs with
  | Some (i, event) =>
      if negb (isUndef value) then
        let event := Event.set_value value event in
        Ok (Some event, set_event i event w)
      else Ok (Some event, w)
  | None =>
      (* if there was no event at that time, create one *)
      if negb (isUndef value) then
        w ← add (ticks_notation time) (Raw value) c w;
        (* return the new event *)
        evs ← events_of w;
        Ok (evs !! (length evs - 1)%nat, w)
      else Ok (None, w)
  end.

(** The constructor [Tone.Part]: [options] is the result of
    [this.optionsObject(arguments, ["callback", "events"], Tone.Part.defaults)].
    An entry of [options.events] is an array [[time, value]] or anything
    else, handed to [add] as it is. *)
Inductive entry :=
  | Pair (time : jsval) (value : addval)
  | Single (time : jsval).

Record Options := mkOptions {
  opt_callback : nat;
  opt_events : option (list entry);
  opt_loop : jsval;
  opt_loopStart : jsval;
  opt_loopEnd : jsval;
  opt_playbackRate : Q;
  opt_probability : Q;
  opt_humanize : jsval;
  opt_mute : bool
}.

(** [Tone.Part.defaults]; the callback [Tone.noOp] is function [0]. *)
Definition defaults : Options :=
  mkOptions 0%nat None (VBool false) (VNum 0) (VStr "1m") 1 1 (VBool false) false.

Fixpoint add_entries (events : list entry) (c : Clock) (w : World) : result World :=
  match events with
  | [] => Ok w
  | Pair time value :: rest => w ← add time value c w; add_entries rest c w
  | Single time :: rest => w ← add time (Raw VUndef) c w; add_entries rest c w
  end.

Definition new_Part (options : Options) (c : Clock) (h : heap_t) : result World :=
  let w :=
    mkWorld h
      (mkPart (opt_loop options) (toTicks (opt_loopStart options))
         (toTicks (opt_loopEnd options)) (opt_playbackRate options)
         (opt_probability options) (opt_humanize options) 0
         (Some []) (Some []) (Some (opt_callback options)) (opt_mute options))
      [] [] in
  (* add the events *)
  let events := default [] (opt_events options) in
  if opt_events options is Some _ then add_entries events c w else Ok w.

(** *** Runs of the group

    The operations a caller (or the clock) performs on a group. *)
Inductive Op :=
  | OpStart (time offset : jsval)
  | OpStop (time : jsval)
  | OpAdd (time : jsval) (value : addval)
  | OpRemove (time value : jsval)
  | OpRemoveAll
  | OpCancel (after : Z)
  | OpStartOffset (offset : Z)
  | OpProbability (prob : Q)
  | OpHumanize (variation : jsval)
  | OpPlaybackRate (rate : Q)
  | OpLoop (loop : jsval)
  | OpLoopStart (loopStart : jsval)
  | OpLoopEnd (loopEnd : jsval)
  | OpMute (mute : bool)
  | OpDispose.

Definition run (op : Op) (c : Clock) (w : World) : result World :=
  match op with
  | OpStart time offset => start time offset w
  | OpStop time => stop time w
  | OpAdd time value => add time value c w
  | OpRemove time value => remove time value w
  | OpRemoveAll => removeAll w
  | OpCancel after => cancel after w
  | OpStartOffset offset => set_startOffset offset w
  | OpProbability prob => set_probability prob w
  | OpHumanize variation => set_humanize variation w
  | OpPlaybackRate rate => set_playbackRate rate w
  | OpLoop loop => set_loop loop c w
  | OpLoopStart loopStart => set_loopStart loopStart c w
  | OpLoopEnd loopEnd => set_loopEnd loopEnd c w
  | OpMute b => Ok (assign_mute b w)
  | OpDispose => dispose w
  end.

End Methods.

(** ** Vocabulary of the statements *)

(** The children of the group; none once it is disposed. *)
Definition children (w : World) : list Event.t := default [] (_events (this w)).

(** A group that has not been disposed. *)
Definition live (w : World) : Prop :=
  is_Some (_state (this w)) ∧ is_Some (_events (this w)).

(** The world whose group has the children [k] and has let go of [d]. *)
Definition with_children (k d : list Event.t) (w : World) : World :=
  mkWorld (heap w) (this (assign_events (Some k) w)) d (fired w).

(** The child's offset relative to the group lies in the loop window
    [[loopStart, loopEnd)]. *)
Definition in_window (p : Part) (e : Event.t) : Prop :=
  _loopStart p ≤ Event.startOffset e - _startOffset p < _loopEnd p.

(** The group loops and the child lies outside its loop window. *)
Definition outside (p : Part) (e : Event.t) : Prop :=
  truthy (_loop p) = true ∧ ¬ in_window p e.

(** The children [remove] is asked to remove: those whose start offset is
    the given tick and whose value is the given one, any value when none is
    given. *)
Definition matches (time : Z) (value : jsval) (e : Event.t) : Prop :=
  Event.startOffset e = time ∧ (value = VUndef ∨ Event.value e = value).

#[global] Instance matches_dec time value e : Decision (matches time value e).
Proof. unfold matches. apply _. Defined.

#[global] Instance in_window_dec p e : Decision (in_window p e).
Proof. unfold in_window. apply _. Defined.

(** The fields [add] initializes on the child it appends, from the group's
    settings at the moment of insertion. *)
Definition inherits (p : Part) (time : Z) (e : Event.t) : Prop :=
  Event.callback e = Event.BoundTick ∧
  Event.startOffset e = time ∧
  Event._loopEnd e = _loopEnd p - _loopStart p ∧
  Event.loop e = _loop p ∧
  Event.humanize e = _humanize p ∧
  Event.playbackRate e = _playbackRate p ∧
  Event.probability e = _probability p.

(** What the second argument of [add] brings along: the event itself, or a
    new event around the value. *)
Definition origin (v : addval) : Event.t :=
  match v with
  | Raw x => Event.create Event.BoundTick x 0
  | Child ev => ev
  end.

(** The fields of the appended child that [add] takes from its argument. *)
Definition carries (v : addval) (e : Event.t) : Prop :=
  Event.value e = Event.value (origin v) ∧
  Event._state e = Event._state (origin v) ∧
  Event.calls e = Event.calls (origin v) ∧
  Event.disposed e = Event.disposed (origin v) ∧
  Event._loopStart e = Event._loopStart (origin v).

(** The parameters [add] extracts: the time, the value, and the heap it
    leaves behind. *)
Definition add_args (h : heap_t) (time : jsval) (value : addval)
    : jsval * addval * heap_t :=
  match own_time h time with
  | Some (l, o, t) => (t, Raw (VObj l), <[l := delete "time"%string o]> h)
  | None => (time, value, h)
  end.



(** A child whose settings are those of its group: probability, humanize,
    playback rate and loop, and, while the group loops, the loop length
    [loopEnd - loopStart]. *)
Definition in_sync (p : Part) (e : Event.t) : Prop :=
  Event.probability e = _probability p ∧
  Event.humanize e = _humanize p ∧
  Event.playbackRate e = _playbackRate p ∧
  Event.loop e = _loop p ∧
  (truthy (_loop p) = true → Event._loopEnd e = _loopEnd p - _loopStart p).

(** The operations that do not dereference the Timeline or the child list:
    [mute], and the [loopStart] and [loopEnd] setters of a group that does
    not loop. *)
Definition spares (p : Part) (op : Op) : Prop :=
  match op with
  | OpMute _ => True
  | OpLoopStart _ | OpLoopEnd _ => truthy (_loop p) = false
  | _ => False
  end.

(** The operations that write to the Timeline. *)
Definition writes_timeline (op : Op) : Prop :=
  match op with
  | OpStart _ _ | OpStop _ | OpCancel _ | OpDispose => True
  | _ => False
  end.

(** The time an entry of the constructor's [events] hands to [add]. *)
Definition entry_time (en : entry) : jsval :=
  match en with
  | Pair time _ => time
  | Single time => time
  end.

(** An entry whose time is not an object, and whose value, if it is an
    event, has no trigger scheduled. *)
Definition plain_entry (en : entry) : Prop :=
  (∀ l, entry_time en ≠ VObj l) ∧
  match en with
  | Pair _ (Child ev) => Event.dormant ev
  | _ => True
  end.

(** Two states of the group with the same settings for its children. *)
Definition same_settings (p p' : Part) : Prop :=
  _loop p' = _loop p ∧ _loopStart p' = _loopStart p ∧ _loopEnd p' = _loopEnd p ∧
  _probability p' = _probability p ∧ _humanize p' = _humanize p ∧
  _playbackRate p' = _playbackRate p.

(** The child as the [loop] setter and, in a looping group, the [loopStart]
    and [loopEnd] setters assign it before the loop-window test. *)
Definition loop_assigned (p : Part) (e : Event.t) : Event.t :=
  Event.set_loop (_loop p) (Event.set_loopEnd (_loopEnd p - _loopStart p)
                              (Event.set_loopStart 0 e)).

Definition length_assigned (p : Part) (e : Event.t) : Event.t :=
  Event.set_loopEnd (_loopEnd p - _loopStart p) e.

(** A child the group owns: its callback is the group's [_tick], and it has
    not been disposed. *)
Definition owned (e : Event.t) : Prop :=
  Event.callback e = Event.BoundTick ∧ Event.disposed e = false.

(** A child that has been disposed: its last call was [dispose], and it has
    no trigger left. *)
Definition let_go (e : Event.t) : Prop :=
  Event.disposed e = true ∧ Event.dormant e ∧ head (Event.calls e) = Some Event.Dispose.

(** A child whose start offset is less than one tick's duration [tickTime]
    away from the tick [time]: the test of [at]. *)
Definition near (time : Z) (tickTime : Q) (e : Event.t) : Prop :=
  (inject_Z (Z.abs (time - Event.startOffset e)) < tickTime)%Q.

(** ** Concrete groups, used to run the methods *)

(** A conversion service for the runs below: a number is a tick count, and
    ["1m"] is 192 ticks. *)
Definition ticks_of (v : jsval) : Z :=
  match v with
  | VNum n => n
  | VStr s => if bool_decide (s = "1m"%string) then 192 else 0
  | _ => 0
  end.

(** [new Tone.Part(callback)] with the default options and no events. *)
Definition fresh : Part :=
  mkPart (VBool false) (ticks_of (VNum 0)) (ticks_of (VStr "1m")) 1 1 (VBool false)
         0 (Some []) (Some []) (Some 0%nat) false.

Definition fresh_world : World := mkWorld ∅ fresh [] [].

Definition at_rest : Clock := mkClock 0 0.

(** A sequence of operations, and the world a run ends in. *)
Definition run_all (toTicks : jsval → Z) (ops : list Op) (c : Clock) (w : World)
    : result World :=
  foldl (λ r op, w ← r; run toTicks op c w) (Ok w) ops.

Definition the (r : result World) : World :=
  match r with
  | Ok w => w
  | Throw _ => fresh_world
  end.

(** The part of the first example of [Part.js], in ticks: three notes at
    [0], [96] and [144]. *)
Definition three_notes : World := Eval vm_compute in
  the (run_all ticks_of
         [OpAdd (VNum 0) (Raw (VStr "C2"));
          OpAdd (VNum 96) (Raw (VStr "C3"));
          OpAdd (VNum 144) (Raw (VStr "G2"))] at_rest fresh_world).

(** The same part, looping over its first half measure [[0, 96)]. *)
Definition looping : World := Eval vm_compute in
  the (run_all ticks_of [OpLoopEnd (VNum 96); OpLoop (VBool true)] at_rest three_notes).

(** The looping part, started at tick [0]: only the note at [0] lies in the
    loop window. *)
Definition looping_started : World := Eval vm_compute in
  the (run ticks_of (OpStart (VNum 0) VUndef) at_rest looping).



(** The same part, started at tick [0]. *)
Definition playing : World := Eval vm_compute in
  the (run ticks_of (OpStart (VNum 0) VUndef) at_rest three_notes).

(** A caller's note object [{time: 96, note: "C3"}] at address [0], next to
    an empty group. *)
Definition note_object : obj :=
  {[ "time"%string := VNum 96; "note"%string := VStr "C3" ]}.

Definition with_note : World := mkWorld {[ 0%nat := note_object ]} fresh [] [].

(** A conversion service that also reads the ticks notation: a decimal
    number followed by ["i"]. *)
Definition ticks_i (v : jsval) : Z :=
  match v with
  | VNum n => n
  | VStr s =>
      if bool_decide (s = "1m"%string) then 192
      else
        match NilZero.int_of_string (String.substring 0 (String.length s - 1) s) with
        | Some d => Z.of_int d
        | None => 0
        end
  | _ => 0
  end.

(** One tick lasts [1/384] seconds: 192 ticks per quarter note at 120 beats
    per minute. *)
Definition seconds_of (ticks : Z) : Q := (ticks # 384)%Q.

(** * Facts *)

(** ** The Timeline *)

Lemma search_addEvent r tl found :
  Timeline.search found (Timeline.addEvent r tl) (Timeline.time r) = Some r.
Proof.
  revert found. induction tl as [|x tl IH]; intros found; simpl.
  - by rewrite Z.leb_refl.
  - destruct (Timeline.time x <=? Timeline.time r) eqn:Hx; simpl.
    + by rewrite Hx.
    + by rewrite Z.leb_refl, Hx.
Qed.

Lemma getStateAtTime_addEvent r tl :
  Timeline.getStateAtTime (Timeline.addEvent r tl) (Timeline.time r) = Timeline.state r.
Proof. unfold Timeline.getStateAtTime, Timeline.getEvent. by rewrite search_addEvent. Qed.

Lemma length_addEvent r tl :
  length (Timeline.addEvent r tl) = S (length tl).
Proof.
  induction tl as [|x tl IH]; simpl; [done|].
  destruct (Timeline.time x <=? Timeline.time r); simpl; by rewrite ?IH.
Qed.



Lemma elem_of_addEvent x r tl :
  x ∈ Timeline.addEvent r tl ↔ x = r ∨ x ∈ tl.
Proof.
  induction tl as [|y tl IH]; simpl.
  - rewrite list_elem_of_singleton. split; [by left|]. intros [?|?%elem_of_nil]; done.
  - destruct (Timeline.time y <=? Timeline.time r).
    + rewrite !elem_of_cons, IH. tauto.
    + rewrite !elem_of_cons. tauto.
Qed.

(** ** Children *)

Lemma dormant_iff e :
  Event.dormant e ↔ Forall (λ r, Timeline.state r = Stopped) (Event._state e).
Proof.
  unfold Event.dormant, Event.triggers. split.
  - intros H%fmap_nil_inv. revert H.
    induction (Event._state e) as [|r tl IH]; intros H; [constructor|].
    rewrite filter_cons in H.
    destruct (decide (Timeline.state r = Started)); [done|].
    constructor; [by destruct (Timeline.state r)|auto].
  - intros H. induction H as [|r tl Hr _ IH]; [done|].
    rewrite filter_cons. destruct (decide (Timeline.state r = Started)); [congruence|done].
Qed.




(** ** The iteration *)

Lemma bind_Ok {A B} (a : A) (f : A → result B) : (Ok a ≫= f) = f a.
Proof. done. Qed.

Lemma assign_events_self w k :
  _events (this w) = Some k → assign_events (Some k) w = w.
Proof. destruct w as [h [] d f]. simpl. by intros ->. Qed.

Lemma forEach_loop_map (g : Event.t → Event.t) cb w0 :
  (∀ e i k, cb e i (assign_events (Some k) w0)
            = Ok (assign_events (Some (<[i:=g e]> k)) w0)) →
  ∀ (n : nat) k, (n ≤ length k)%nat →
  ∃ v, forEach_loop cb n (assign_events (Some k) w0)
       = Ok (v, assign_events (Some ((g <$> take n k) ++ drop n k)) w0).
Proof.
  intros Hcb. induction n as [|i IH]; intros k Hn.
  - by exists [].
  - destruct (lookup_lt_is_Some_2 k i) as [e He]; [lia|].
    destruct (IH (<[i:=g e]> k)) as [v Hv]; [rewrite length_insert; lia|].
    exists ((i, e) :: v). cbn [forEach_loop].
    change (events_of (assign_events (Some k) w0)) with (Ok k).
    rewrite bind_Ok, He. cbn [deref]. rewrite bind_Ok, Hcb, bind_Ok, Hv, bind_Ok.
    cbn [fst snd]. do 3 f_equal.
    rewrite take_insert_ge by lia.
    rewrite (take_S_r k i e He), fmap_app, <- app_assoc. f_equal.
    rewrite (drop_S (<[i:=g e]> k) (g e) i) by (apply list_lookup_insert_eq; lia).
    by rewrite drop_insert_lt by lia.
Qed.

Lemma forEach_map (g : Event.t → Event.t) cb w k :
  _events (this w) = Some k →
  (∀ e i k, cb e i (assign_events (Some k) w)
            = Ok (assign_events (Some (<[i:=g e]> k)) w)) →
  _forEach cb w = Ok (assign_events (Some (g <$> k)) w).
Proof.
  intros Hk Hcb. unfold _forEach, events_of. rewrite Hk. cbn [deref]. rewrite bind_Ok.
  destruct (forEach_loop_map g cb w Hcb (length k) k) as [v Hv]; [done|].
  rewrite <- (assign_events_self w k Hk) at 1. rewrite Hv, bind_Ok. cbn [snd].
  by rewrite firstn_all, drop_all, app_nil_r.
Qed.

Lemma forEach_rel (f : Event.t → result Event.t) cb w k :
  _events (this w) = Some k →
  (∀ e, ∃ e', f e = Ok e') →
  (∀ e i k, cb e i (assign_events (Some k) w)
            = (e' ← f e; Ok (assign_events (Some (<[i:=e']> k)) w))) →
  ∃ k', _forEach cb w = Ok (assign_events (Some k') w) ∧
        Forall2 (λ e e', f e = Ok e') k k'.
Proof.
  intros Hk Htot Hcb.
  set (g := λ e, match f e with Ok e' => e' | Throw _ => e end).
  assert (Hg : ∀ e, f e = Ok (g e)).
  { intros e. unfold g. by destruct (Htot e) as [e' ->]. }
  exists (g <$> k). split.
  - apply forEach_map; [done|]. intros e i k0. by rewrite Hcb, Hg.
  - apply Forall2_fmap_r, Forall_Forall2_diag, Forall_forall. auto.
Qed.

(** ** The positioning algorithm and the loop-window test *)

Lemma startNote_outside p e ticks offset :
  outside p e → _startNote p e ticks offset = e.
Proof.
  intros [Hloop Hout]. unfold _startNote. rewrite Hloop.
  destruct (_ <=? _) eqn:H1; [|done]. destruct (_ <? _) eqn:H2; [|done].
  exfalso. apply Hout. unfold in_window. lia.
Qed.

Lemma startNote_startOffset p e ticks offset :
  Event.startOffset (_startNote p e ticks offset) = Event.startOffset e.
Proof.
  unfold _startNote, Event.start.
  repeat (destruct (truthy _) || destruct (_ && _) || destruct (Timeline.getStateAtTime _ _)); done.
Qed.

Lemma restartEvent_total p c e tl :
  _state p = Some tl → ∃ e', _restartEvent p c e = Ok e'.
Proof.
  intros H. unfold _restartEvent. rewrite H. cbn [deref]. rewrite bind_Ok.
  destruct (Timeline.getEvent tl (now c)) as [r|]; [|by eauto].
  destruct (decide (Timeline.state r = Started)); eauto.
Qed.

Lemma testLoopBoundries_total p c e tl :
  _state p = Some tl → ∃ e', _testLoopBoundries p c e = Ok e'.
Proof.
  intros H. unfold _testLoopBoundries.
  destruct (_ || _); [by eauto|].
  destruct (decide _); [|by eauto]. by eapply restartEvent_total.
Qed.

Lemma window_test p e :
  (Event.startOffset e - _startOffset p <? _loopStart p)
  || (_loopEnd p <=? Event.startOffset e - _startOffset p) = bool_decide (¬ in_window p e).
Proof.
  unfold in_window. case_bool_decide as H.
  - apply orb_true_iff. destruct (Z.ltb_spec (Event.startOffset e - _startOffset p) (_loopStart p));
      [by left|right]. apply Z.leb_le. lia.
  - apply orb_false_iff. split; [apply Z.ltb_ge|apply Z.leb_gt]; lia.
Qed.

Lemma restartEvent_startOffset p c e e' :
  _restartEvent p c e = Ok e' → Event.startOffset e' = Event.startOffset e.
Proof.
  unfold _restartEvent. destruct (_state p) as [tl|]; [|done]. cbn [deref]. rewrite bind_Ok.
  destruct (Timeline.getEvent tl (now c)) as [r|]; [|by intros [= <-]].
  destruct (decide _); intros [= <-]; [apply startNote_startOffset|done].
Qed.

Lemma testLoopBoundries_startOffset p c e e' :
  _testLoopBoundries p c e = Ok e' → Event.startOffset e' = Event.startOffset e.
Proof.
  unfold _testLoopBoundries. destruct (_ || _); [by intros [= <-]|].
  destruct (decide _); [apply restartEvent_startOffset|by intros [= <-]].
Qed.

Lemma testLoopBoundries_outside p c e :
  ¬ in_window p e → _testLoopBoundries p c e = Ok (Event.cancel None e).
Proof.
  intros H. unfold _testLoopBoundries. rewrite window_test.
  by rewrite bool_decide_eq_true_2.
Qed.

(** ** The methods, one by one *)

Lemma start_spec toTicks time offset w tl evs :
  _state (this w) = Some tl → _events (this w) = Some evs →
  start toTicks time offset w =
    Ok (if decide (Timeline.getStateAtTime tl (toTicks time) = Started) then w
        else
          let ticks := toTicks time in
          let off := toTicks (defaultArg offset (VNum 0)) in
          assign_events (Some ((λ e, _startNote (this w) e ticks off) <$> evs))
            (assign_state (Some (Timeline.addEvent (Timeline.mk Started ticks off) tl)) w)).
Proof.
  intros Hs He. unfold start, state_of. rewrite Hs. cbn [deref]. rewrite bind_Ok.
  destruct (decide (Timeline.getStateAtTime tl (toTicks time) = Started)) as [Hst|Hst].
  - by rewrite decide_False by auto.
  - rewrite decide_True by done. cbn zeta.
    by apply forEach_map.
Qed.

Lemma stop_spec toTicks time w tl evs :
  _state (this w) = Some tl → _events (this w) = Some evs →
  stop toTicks time w =
    Ok (if decide (Timeline.getStateAtTime tl (toTicks time) = Started) then
          assign_events (Some (Event.stop (toTicks time) <$> evs))
            (assign_state (Some (Timeline.setStateAtTime Stopped (toTicks time) tl)) w)
        else w).
Proof.
  intros Hs He. unfold stop, state_of. rewrite Hs. cbn [deref]. rewrite bind_Ok.
  destruct (decide _); [|done]. by apply forEach_map.
Qed.

Lemma set_startOffset_spec offset w evs :
  _events (this w) = Some evs →
  set_startOffset offset w =
    Ok (assign_events
          (Some ((λ e, Event.set_startOffset (Event.startOffset e + offset) e) <$> evs))
          (assign_startOffset offset w)).
Proof. intros He. unfold set_startOffset. by apply forEach_map. Qed.

Lemma setAll_spec assign w evs :
  _events (this w) = Some evs →
  _setAll assign w = Ok (assign_events (Some (assign <$> evs)) w).
Proof. intros He. unfold _setAll. by apply forEach_map. Qed.

Lemma cancel_spec after w tl evs :
  _state (this w) = Some tl → _events (this w) = Some evs →
  cancel after w =
    Ok (assign_state (Some (Timeline.cancel after tl))
          (assign_events (Some (Event.cancel (Some after) <$> evs)) w)).
Proof.
  intros Hs He. unfold cancel.
  rewrite (forEach_map (Event.cancel (Some after)) _ w evs He) by done.
  rewrite bind_Ok. unfold state_of. simpl. rewrite Hs. done.
Qed.

Lemma removeAll_spec w evs :
  _events (this w) = Some evs →
  removeAll w = Ok (with_children [] ((Event.dispose <$> evs) ++ dropped w) w).
Proof.
  intros He. unfold removeAll.
  rewrite (forEach_map Event.dispose _ w evs He) by done.
  by rewrite bind_Ok.
Qed.

Lemma dispose_spec w tl evs :
  _state (this w) = Some tl → _events (this w) = Some evs →
  dispose w =
    Ok (assign_events None (assign_callback None (assign_state None
          (with_children [] ((Event.dispose <$> evs) ++ dropped w) w)))).
Proof.
  intros Hs He. unfold dispose. rewrite (removeAll_spec w evs He), bind_Ok.
  unfold state_of. simpl. rewrite Hs. done.
Qed.

Lemma retest_spec (init : Part → Event.t → Event.t) c w tl evs :
  _state (this w) = Some tl → _events (this w) = Some evs →
  (∀ k e, init (this (assign_events k w)) e = init (this w) e) →
  ∃ evs',
    _forEach (λ event i w,
       event ← _testLoopBoundries (this w) c (init (this w) event);
       Ok (set_event i event w)) w = Ok (assign_events (Some evs') w) ∧
    Forall2 (λ e e', _testLoopBoundries (this w) c (init (this w) e) = Ok e') evs evs'.
Proof.
  intros Hs He Hinit.
  apply (forEach_rel (λ e, _testLoopBoundries (this w) c (init (this w) e))); [done| |].
  - intros e. by eapply testLoopBoundries_total.
  - intros e i k. rewrite Hinit. done.
Qed.

Lemma add_spec toTicks time value c w tl evs :
  _state (this w) = Some tl → _events (this w) = Some evs →
  ∃ e0 e',
    add toTicks time value c w
      = Ok (assign_heap (add_args (heap w) time value).2
              (assign_events (Some (evs ++ [e'])) w)) ∧
    _restartEvent (this w) c e0 = Ok e' ∧
    inherits (this w) (toTicks (add_args (heap w) time value).1.1) e0 ∧
    carries (add_args (heap w) time value).1.2 e0.
Proof.
  intros Hs He. unfold add, add_args.
  destruct (own_time (heap w) time) as [[[l o] t]|]; cbn [fst snd].
  - set (e0 := Event.set_probability _ _).
    destruct (restartEvent_total (this w) c e0 tl Hs) as [e' He'].
    exists e0, e'. split; [|done].
    unfold events_of. simpl. rewrite He. cbn [deref]. rewrite bind_Ok.
    change (_restartEvent _ c e0) with (_restartEvent (this w) c e0).
    rewrite He', bind_Ok. unfold set_event, assign_events, assign_heap, on_this. simpl.
    do 4 f_equal. rewrite insert_app_r_alt by done. by rewrite Nat.sub_diag.
  - set (e0 := Event.set_probability _ _).
    destruct (restartEvent_total (this w) c e0 tl Hs) as [e' He'].
    exists e0, e'. split; [|by destruct value].
    unfold events_of. rewrite He. cbn [deref]. rewrite bind_Ok.
    change (_restartEvent _ c e0) with (_restartEvent (this w) c e0).
    rewrite He', bind_Ok. unfold set_event, assign_events, assign_heap, on_this. simpl.
    destruct w as [h p d f]. simpl. do 3 f_equal.
    rewrite insert_app_r_alt by done. by rewrite Nat.sub_diag.
Qed.

(** ** Removal during the reverse iteration *)

Lemma remove_callback_matches time value e i w :
  matches time value e →
  remove_callback time value e i w
    = Ok (release (Event.dispose e) (assign_events (delete i <$> _events (this w)) w)).
Proof.
  intros [Ht Hv]. unfold remove_callback. rewrite decide_True by done.
  destruct Hv as [->| <-]; [done|]. unfold strict_eq.
  rewrite bool_decide_eq_true_2 by done. by destruct (isUndef _).
Qed.

Lemma remove_callback_other time value e i w :
  ¬ matches time value e → remove_callback time value e i w = Ok w.
Proof.
  intros Hm. unfold remove_callback. destruct (decide _) as [Ht|]; [|done].
  destruct value; simpl; try (unfold strict_eq; case_bool_decide; [|done]);
    exfalso; apply Hm; split; auto.
Qed.

Lemma visits_snoc (l : list Event.t) e :
  reverse (imap pair (l ++ [e])) = (length l, e) :: reverse (imap pair l).
Proof.
  rewrite imap_app, reverse_app. simpl. by rewrite Nat.add_0_r.
Qed.

Lemma remove_loop time value w evs d :
  ∀ n : nat, (n ≤ length evs)%nat →
  forEach_loop (remove_callback time value) n
    (with_children
       (take n evs ++ filter (λ e, ¬ matches time value e) (drop n evs))
       ((Event.dispose <$> filter (matches time value) (drop n evs)) ++ d) w)
  = Ok (reverse (imap pair (take n evs)),
        with_children
          (filter (λ e, ¬ matches time value e) evs)
          ((Event.dispose <$> filter (matches time value) evs) ++ d) w).
Proof.
  induction n as [|i IH]; intros Hn.
  - done.
  - destruct (lookup_lt_is_Some_2 evs i) as [e He]; [lia|].
    specialize (IH ltac:(lia)).
    rewrite (drop_S evs e i He) in IH.
    rewrite (take_S_r evs i e He), <- app_assoc. cbn [app].
    assert (Hi : length (take i evs) = i) by (apply length_take_le; lia).
    cbn [forEach_loop].
    change (events_of (with_children ?k _ _)) with (Ok k).
    rewrite bind_Ok, list_lookup_middle by done. cbn [deref]. rewrite bind_Ok.
    rewrite visits_snoc, Hi.
    destruct (decide (matches time value e)) as [Hm|Hm].
    + rewrite remove_callback_matches, bind_Ok by done.
      rewrite filter_cons_False in IH by tauto.
      rewrite filter_cons_True, fmap_cons, <- app_comm_cons in IH by done.
      assert (Hw : ∀ K D,
        release (Event.dispose e)
          (assign_events (delete i <$> _events (this (with_children K D w)))
             (with_children K D w))
        = with_children (delete i K) (Event.dispose e :: D) w) by done.
      rewrite Hw. rewrite <- Hi at 2. rewrite delete_middle.
      by rewrite IH, bind_Ok.
    + rewrite remove_callback_other, bind_Ok by done.
      rewrite filter_cons_True in IH by done.
      rewrite filter_cons_False in IH by done.
      by rewrite IH, bind_Ok.
Qed.

Lemma with_children_self w evs :
  _events (this w) = Some evs → with_children evs (dropped w) w = w.
Proof. destruct w as [h [] d f]. simpl. intros ->. done. Qed.

Lemma remove_run time value w evs :
  _events (this w) = Some evs →
  forEach_loop (remove_callback time value) (length evs) w
  = Ok (reverse (imap pair evs),
        with_children
          (filter (λ e, ¬ matches time value e) evs)
          ((Event.dispose <$> filter (matches time value) evs) ++ dropped w) w).
Proof.
  intros He.
  pose proof (remove_loop time value w evs (dropped w) (length evs) ltac:(done)) as H.
  rewrite firstn_all, drop_all in H. simpl in H. rewrite app_nil_r in H.
  by rewrite (with_children_self w evs He) in H.
Qed.

Lemma filter_none {A} (P : A → Prop) `{∀ x, Decision (P x)} (l : list A) :
  Forall (λ x, ¬ P x) l → filter P l = [] ∧ filter (λ x, ¬ P x) l = l.
Proof.
  induction 1 as [|x l Hx _ [IH1 IH2]]; [done|].
  rewrite filter_cons_False by done. rewrite filter_cons_True by done.
  by rewrite IH1, IH2.
Qed.

Lemma restartEvent_value p c e e' :
  _restartEvent p c e = Ok e' → Event.value e' = Event.value e.
Proof.
  unfold _restartEvent. destruct (_state p) as [tl|]; [|done]. cbn [deref]. rewrite bind_Ok.
  destruct (Timeline.getEvent tl (now c)) as [r|]; [|by intros [= <-]].
  destruct (decide _); intros [= <-]; [|done].
  unfold _startNote, Event.start.
  repeat (destruct (truthy _) || destruct (_ && _) || destruct (Timeline.getStateAtTime _ _)); done.
Qed.

Lemma remove_heap toTicks time value w w' :
  remove toTicks time value w = Ok w' → heap w' = heap w.
Proof.
  unfold remove. destruct (remove_args (heap w) time value) as [t v].
  unfold _forEach. destruct (_events (this w)) as [evs|] eqn:He; unfold events_of; rewrite He; [|done].
  cbn [deref]. rewrite bind_Ok, (remove_run _ _ w evs He), bind_Ok. by intros [= <-].
Qed.

(** * The claims *)

(** C8: [remove(time, value)] takes out of the event list every child whose
    start offset is the given tick and whose value is the given one (any
    value when none is given), and disposes each child it takes out: the
    children left are the ones that do not match, in their order, and the
    children let go of are the matching ones, each disposed; the heap, the
    Timeline and the callback's invocations are as they were.  The reverse
    iteration calls the callback on every element of the original list
    exactly once, with its original index, from the last to the first,
    whatever it splices.  When no child matches, the call changes nothing. *)
Theorem remove_takes_out_matching toTicks time value w evs t v :
  _events (this w) = Some evs →
  remove_args (heap w) time value = (t, v) →
  (∃ w' gone,
     remove toTicks time value w = Ok w' ∧
     _events (this w') = Some (filter (λ e, ¬ matches (toTicks t) v e) evs) ∧
     children w' = filter (λ e, ¬ matches (toTicks t) v e) evs ∧
     dropped w' = gone ++ dropped w ∧
     Forall2 (λ e d, d = Event.dispose e ∧ Event.disposed d = true ∧
                     head (Event.calls d) = Some Event.Dispose)
             (filter (matches (toTicks t) v) evs) gone ∧
     heap w' = heap w ∧ _state (this w') = _state (this w) ∧ fired w' = fired w ∧
     w' = with_children
            (filter (λ e, ¬ matches (toTicks t) v e) evs)
            ((Event.dispose <$> filter (matches (toTicks t) v) evs) ++ dropped w) w) ∧
  _forEach_visits (remove_callback (toTicks t) v) w = Ok (reverse (imap pair evs)) ∧
  (Forall (λ e, ¬ matches (toTicks t) v e) evs → remove toTicks time value w = Ok w).
Proof.
  intros He Hargs.
  assert (Hrun : remove toTicks time value w
    = Ok (with_children
            (filter (λ e, ¬ matches (toTicks t) v e) evs)
            ((Event.dispose <$> filter (matches (toTicks t) v) evs) ++ dropped w) w)).
  { unfold remove. rewrite Hargs. unfold _forEach, events_of. rewrite He. cbn [deref].
    by rewrite bind_Ok, (remove_run _ _ w evs He), bind_Ok. }
  split; [|split].
  - eexists _, (Event.dispose <$> filter (matches (toTicks t) v) evs).
    split; [exact Hrun|]. do 3 (split; [done|]).
    split; [|done]. apply Forall2_fmap_r, Forall_Forall2_diag, Forall_forall. by intros x _.
  - unfold _forEach_visits, events_of. rewrite He. cbn [deref].
    by rewrite bind_Ok, (remove_run _ _ w evs He), bind_Ok.
  - intros Hnone. rewrite Hrun.
    destruct (filter_none (matches (toTicks t) v) evs Hnone) as [-> ->].
    rewrite fmap_nil, app_nil_l.
    by rewrite (with_children_self w evs He).
Qed.

Lemma remove_takes_out_matching_witness :
  (∃ w' gone,
     remove ticks_of (VNum 96) VUndef playing = Ok w' ∧
     _events (this w')
       = Some (filter (λ e, ¬ matches (ticks_of (VNum 96)) VUndef e) (children playing)) ∧
     children w'
       = filter (λ e, ¬ matches (ticks_of (VNum 96)) VUndef e) (children playing) ∧
     Event.startOffset <$> children w' = [0; 144] ∧
     dropped w' = gone ++ dropped playing ∧
     Forall2 (λ e d, d = Event.dispose e ∧ Event.disposed d = true ∧
                     head (Event.calls d) = Some Event.Dispose)
             (filter (matches (ticks_of (VNum 96)) VUndef) (children playing)) gone ∧
     Event.startOffset <$> gone = [96] ∧
     heap w' = heap playing ∧ _state (this w') = _state (this playing) ∧
     fired w' = fired playing) ∧
  _forEach_visits (remove_callback (ticks_of (VNum 96)) VUndef) playing
    = Ok (reverse (imap pair (children playing))) ∧
  Forall (λ e, ¬ matches (ticks_of (VNum 50)) VUndef e) (children playing) ∧
  remove ticks_of (VNum 50) VUndef playing = Ok playing.
Proof.
  destruct (remove_takes_out_matching ticks_of (VNum 96) VUndef playing
              (children playing) (VNum 96) VUndef eq_refl eq_refl)
    as ((w' & gone & H1 & H2 & H3 & H4 & H5 & H6 & H7 & H8 & H9) & Hvisits & _).
  destruct (remove_takes_out_matching ticks_of (VNum 50) VUndef playing
              (children playing) (VNum 50) VUndef eq_refl eq_refl)
    as (_ & _ & Hnone).
  assert (Hno : Forall (λ e, ¬ matches (ticks_of (VNum 50)) VUndef e) (children playing)).
  { repeat (constructor; [intros [Hm _]; vm_compute in Hm; discriminate|]). constructor. }
  split; [|split; [exact Hvisits|split; [exact Hno|exact (Hnone Hno)]]].
  exists w', gone.
  split; [exact H1|]. split; [exact H2|]. split; [exact H3|].
  split; [rewrite H3; vm_compute; reflexivity|].
  split; [exact H4|]. split; [exact H5|].
  split; [|split; [exact H6|split; [exact H7|exact H8]]].
  rewrite H9 in H4. simpl in H4. rewrite app_nil_r in H4. rewrite <- H4. reflexivity.
Defined.

(** C9, as the code has it: [remove] reads the [time] field of an object
    passed as its first argument and takes the object itself as the value to
    match, and leaves the caller's heap, that object included, as it was. *)
Theorem remove_leaves_object toTicks l o t value w w' :
  heap w !! l = Some o → o !! "time"%string = Some t →
  remove toTicks (VObj l) value w = Ok w' →
  remove_args (heap w) (VObj l) value = (t, VObj l) ∧
  heap w' = heap w ∧
  heap w' !! l = Some o.
Proof.
  intros Hl Ht Hrun. split; [|split].
  - unfold remove_args, own_time. by rewrite Hl, Ht.
  - by eapply remove_heap.
  - by rewrite (remove_heap _ _ _ _ _ Hrun).
Qed.

Lemma remove_leaves_object_witness :
  remove_args (heap with_note) (VObj 0%nat) VUndef = (VNum 96, VObj 0%nat) ∧
  heap with_note = heap with_note ∧
  heap with_note !! 0%nat = Some note_object.
Proof.
  apply (remove_leaves_object ticks_of 0%nat note_object (VNum 96) VUndef with_note with_note);
    vm_compute; reflexivity.
Defined.

(** C9 fails as stated: after [remove] is handed the note object, the object
    still has its [time] field. *)
Lemma remove_keeps_time_field :
  ∃ w', remove ticks_of (VObj 0%nat) VUndef with_note = Ok w' ∧
        heap w' !! 0%nat = Some note_object ∧
        note_object !! "time"%string = Some (VNum 96).
Proof. exists with_note. split; [|split]; vm_compute; reflexivity. Qed.

(** C10: [add], handed an object with a [time] field, deletes that field
    from the caller's object in place and stores the same object as the new
    child's value: looking the child's value up in the heap afterwards finds
    the object without [time], its other fields and every other object
    untouched. *)
Theorem add_deletes_time_field toTicks l o t value c w tl evs :
  heap w !! l = Some o → o !! "time"%string = Some t →
  _state (this w) = Some tl → _events (this w) = Some evs →
  ∃ w' e',
    add toTicks (VObj l) value c w = Ok w' ∧
    children w' = evs ++ [e'] ∧
    Event.value e' = VObj l ∧
    Event.startOffset e' = toTicks t ∧
    heap w' !! l = Some (delete "time"%string o) ∧
    delete "time"%string o !! "time"%string = None ∧
    (∀ k, k ≠ "time"%string → delete "time"%string o !! k = o !! k) ∧
    (∀ l', l' ≠ l → heap w' !! l' = heap w !! l').
Proof.
  intros Hl Ht Hs He.
  destruct (add_spec toTicks (VObj l) value c w tl evs Hs He) as (e0 & e' & Hadd & Hre & Hin & Hca).
  assert (Hargs : add_args (heap w) (VObj l) value
                  = (t, Raw (VObj l), <[l := delete "time"%string o]> (heap w))).
  { unfold add_args, own_time. by rewrite Hl, Ht. }
  rewrite Hargs in *. cbn [fst snd] in *.
  eexists _, e'. split; [exact Hadd|].
  split; [done|]. split.
  { rewrite (restartEvent_value _ _ _ _ Hre). by destruct Hca as [-> _]. }
  split.
  { rewrite (restartEvent_startOffset _ _ _ _ Hre). by destruct Hin as (_ & -> & _). }
  split; [apply lookup_insert_eq|].
  split; [apply lookup_delete_eq|].
  split.
  - intros k Hk. by apply lookup_delete_ne.
  - intros l' Hl'. simpl. by apply lookup_insert_ne.
Qed.

Lemma add_deletes_time_field_witness :
  ∃ w' e',
    add ticks_of (VObj 0%nat) (Raw VUndef) at_rest with_note = Ok w' ∧
    children w' = [] ++ [e'] ∧
    Event.value e' = VObj 0%nat ∧
    Event.startOffset e' = ticks_of (VNum 96) ∧
    heap w' !! 0%nat = Some (delete "time"%string note_object) ∧
    delete "time"%string note_object !! "time"%string = None ∧
    (∀ k, k ≠ "time"%string → delete "time"%string note_object !! k = note_object !! k) ∧
    (∀ l', l' ≠ 0%nat → heap w' !! l' = heap with_note !! l').
Proof.
  apply (add_deletes_time_field ticks_of 0%nat note_object (VNum 96) (Raw VUndef)
           at_rest with_note [] []); vm_compute; reflexivity.
Defined.




(** C4, as the code has it: the first [dispose] of a live group succeeds; it
    disposes every child and lets go of it, and sets the Timeline, the
    callback and the child list to [null].  Any later [dispose] or [cancel]
    on the disposed group faults with a [TypeError], the child list being
    [null].  On a live group, empty or not, [cancel], [removeAll] and
    [dispose] do not fault. *)
Theorem dispose_once toTicks w tl evs :
  _state (this w) = Some tl → _events (this w) = Some evs →
  ∃ w1,
    dispose w = Ok w1 ∧
    _state (this w1) = None ∧ _events (this w1) = None ∧ callback (this w1) = None ∧
    dropped w1 = (Event.dispose <$> evs) ++ dropped w ∧
    dispose w1 = Throw TypeError ∧
    (∀ after, cancel after w1 = Throw TypeError) ∧
    removeAll w1 = Throw TypeError ∧
    (∀ time offset, start toTicks time offset w1 = Throw TypeError) ∧
    (∀ after, ∃ w2, cancel after w = Ok w2) ∧
    (∃ w2, removeAll w = Ok w2 ∧ children w2 = []).
Proof.
  intros Hs He. eexists. split; [by eapply dispose_spec|].
  repeat split.
  - intros after. eexists. by eapply cancel_spec.
  - eexists. split; [by eapply removeAll_spec|done].
Qed.

Lemma dispose_once_witness :
  ∃ w1,
    dispose playing = Ok w1 ∧
    _state (this w1) = None ∧ _events (this w1) = None ∧ callback (this w1) = None ∧
    dropped w1 = (Event.dispose <$> children playing) ++ dropped playing ∧
    dispose w1 = Throw TypeError ∧
    (∀ after, cancel after w1 = Throw TypeError) ∧
    removeAll w1 = Throw TypeError ∧
    (∀ time offset, start ticks_of time offset w1 = Throw TypeError) ∧
    (∀ after, ∃ w2, cancel after playing = Ok w2) ∧
    (∃ w2, removeAll playing = Ok w2 ∧ children w2 = []).
Proof.
  apply (dispose_once ticks_of playing [Timeline.mk Started 0 0] (children playing));
    reflexivity.
Defined.

(** C4 fails as stated: disposing a new, empty group twice faults the second
    time, and so does [cancel] after [dispose]. *)
Lemma double_dispose_faults :
  ∃ w1,
    dispose fresh_world = Ok w1 ∧
    dispose w1 = Throw TypeError ∧
    cancel 0 w1 = Throw TypeError.
Proof. eexists. split; [reflexivity|]. split; reflexivity. Qed.

(** C2: on a live group, a second [start] at the tick of the [start] just
    made, and a second [stop] at the tick of the [stop] just made, is
    ignored: it does not fault and leaves the whole world, the Timeline and
    every child included, as the first call left it.  The two calls together
    add one record to the Timeline, the one the first call writes to change
    the state at that tick; they add none when the state at that tick was
    already the requested one, and never two. *)
Theorem start_stop_idempotent toTicks time offset offset' w tl evs :
  _state (this w) = Some tl → _events (this w) = Some evs →
  ∃ w1 tl1 w2 tl2,
    start toTicks time offset w = Ok w1 ∧
    start toTicks time offset' w1 = Ok w1 ∧
    _state (this w1) = Some tl1 ∧
    Timeline.getStateAtTime tl1 (toTicks time) = Started ∧
    length tl1 = (if decide (Timeline.getStateAtTime tl (toTicks time) = Started)
                  then length tl else S (length tl)) ∧
    stop toTicks time w = Ok w2 ∧
    stop toTicks time w2 = Ok w2 ∧
    _state (this w2) = Some tl2 ∧
    Timeline.getStateAtTime tl2 (toTicks time) = Stopped ∧
    length tl2 = (if decide (Timeline.getStateAtTime tl (toTicks time) = Started)
                  then S (length tl) else length tl).
Proof.
  intros Hs He.
  pose proof (start_spec toTicks time offset w tl evs Hs He) as Hstart.
  pose proof (stop_spec toTicks time w tl evs Hs He) as Hstop.
  destruct (decide (Timeline.getStateAtTime tl (toTicks time) = Started)) as [Hst|Hst].
  - eexists w, tl, _, _. split; [done|].
    split; [by rewrite (start_spec toTicks time offset' w tl evs Hs He), decide_True|].
    do 3 (split; [done|]). split; [exact Hstop|].
    assert (Hnow : Timeline.getStateAtTime
                     (Timeline.setStateAtTime Stopped (toTicks time) tl) (toTicks time)
                   = Stopped).
    { exact (getStateAtTime_addEvent (Timeline.mk Stopped (toTicks time) 0) tl). }
    split; [|split; [done|split; [done|]]].
    + erewrite stop_spec; [|done|done]. by rewrite decide_False by (rewrite Hnow; done).
    + unfold Timeline.setStateAtTime. by rewrite length_addEvent.
  - cbn zeta in Hstart.
    set (off := toTicks (defaultArg offset (VNum 0))) in *.
    assert (Hnow : Timeline.getStateAtTime
                     (Timeline.addEvent (Timeline.mk Started (toTicks time) off) tl)
                     (toTicks time) = Started).
    { exact (getStateAtTime_addEvent (Timeline.mk Started (toTicks time) off) tl). }
    eexists _, _, w, tl. split; [exact Hstart|].
    split; [|split; [done|split; [done|split; [by rewrite length_addEvent|]]]].
    + erewrite start_spec; [|done|done]. by rewrite decide_True.
    + split; [done|]. split; [done|]. split; [done|]. split; [|done].
      by destruct (Timeline.getStateAtTime tl (toTicks time)).
Qed.

Lemma start_stop_idempotent_witness :
  ∃ w1 tl1 w2 tl2,
    start ticks_of (VNum 0) VUndef three_notes = Ok w1 ∧
    start ticks_of (VNum 0) (VNum 48) w1 = Ok w1 ∧
    _state (this w1) = Some tl1 ∧
    Timeline.getStateAtTime tl1 (ticks_of (VNum 0)) = Started ∧
    length tl1 = (if decide (Timeline.getStateAtTime [] (ticks_of (VNum 0)) = Started)
                  then length ([] : Timeline.t) else S (length ([] : Timeline.t))) ∧
    stop ticks_of (VNum 0) three_notes = Ok w2 ∧
    stop ticks_of (VNum 0) w2 = Ok w2 ∧
    _state (this w2) = Some tl2 ∧
    Timeline.getStateAtTime tl2 (ticks_of (VNum 0)) = Stopped ∧
    length tl2 = (if decide (Timeline.getStateAtTime [] (ticks_of (VNum 0)) = Started)
                  then S (length ([] : Timeline.t)) else length ([] : Timeline.t)).
Proof.
  apply (start_stop_idempotent ticks_of (VNum 0) VUndef (VNum 48) three_notes []
           (children three_notes)); reflexivity.
Defined.

Lemma filter_addEvent_other (P : Timeline.record → Prop) `{∀ r, Decision (P r)} r tl :
  ¬ P r → filter P (Timeline.addEvent r tl) = filter P tl.
Proof.
  intros Hr. induction tl as [|x tl IH]; simpl.
  - by rewrite filter_cons_False.
  - destruct (Timeline.time x <=? Timeline.time r).
    + by rewrite !filter_cons, IH.
    + by rewrite (filter_cons_False _ r).
Qed.

Lemma triggers_stop tick e : Event.triggers (Event.stop tick e) = Event.triggers e.
Proof.
  unfold Event.stop, Event.triggers.
  destruct (Timeline.getStateAtTime (Event._state e) tick); [|done]. simpl.
  unfold Timeline.setStateAtTime. by rewrite filter_addEvent_other.
Qed.

Lemma calls_stop tick e : Event.calls (Event.stop tick e) = Event.Stop tick :: Event.calls e.
Proof. unfold Event.stop. by destruct (Timeline.getStateAtTime _ _). Qed.

Lemma tick_spec time value c w tl f :
  _state (this w) = Some tl → callback (this w) = Some f →
  _tick time value c w
    = Ok (if decide (mute (this w) = false ∧
                     Timeline.getStateAtTime tl (transport_ticks c) = Started)
          then invoke time value w else w).
Proof.
  intros Hs Hf. unfold _tick, state_of. rewrite Hs, Hf. cbn [deref].
  destruct (decide (mute (this w) = false ∧
                    Timeline.getStateAtTime tl (transport_ticks c) = Started))
    as [[Hm Hst]|Hn].
  - rewrite Hm. cbn [negb]. by rewrite bind_Ok, decide_True, bind_Ok.
  - destruct (mute (this w)); cbn [negb]; [done|]. rewrite bind_Ok.
    rewrite decide_False; [done|]. intros Hst. by apply Hn.
Qed.

Lemma tick_silent time value c w tl :
  _state (this w) = Some tl →
  Timeline.getStateAtTime tl (transport_ticks c) = Stopped →
  _tick time value c w = Ok w.
Proof.
  intros Hs Hst. unfold _tick, state_of. rewrite Hs. cbn [deref].
  destruct (mute (this w)); cbn [negb]; [done|]. rewrite bind_Ok.
  by rewrite decide_False by congruence.
Qed.

Lemma tick_fired time value c w tl f :
  _state (this w) = Some tl → callback (this w) = Some f →
  ∃ w',
    _tick time value c w = Ok w' ∧
    fired w' = (if decide (mute (this w) = false ∧
                           Timeline.getStateAtTime tl (transport_ticks c) = Started)
                then (time, value) :: fired w else fired w) ∧
    heap w' = heap w ∧ this w' = this w ∧ dropped w' = dropped w.
Proof.
  intros Hs Hf. eexists. split; [by eapply tick_spec|].
  by destruct (decide _).
Qed.

Lemma trigger_silent e draw time c w tl :
  _state (this w) = Some tl →
  Timeline.getStateAtTime tl (transport_ticks c) = Stopped →
  trigger e draw time c w = Ok w.
Proof.
  intros Hs Hst. unfold trigger. destruct (_ && _); [|done].
  destruct (Event.callback e); try done. by eapply tick_silent.
Qed.

(** C3: [_tick] invokes the user callback with [(time, value)], once,
    exactly when [mute] is false and the Timeline's state at the external
    clock's current tick is [Started]; otherwise the callback is not invoked.
    Either way nothing else changes.  So after a [stop] that records
    [Stopped], at every clock tick where the Timeline's state is [Stopped]
    (the tick of the stop among them) the trigger of any child, whatever it
    has scheduled, runs without the user callback being invoked; and [stop]
    has cancelled no child: every child has received one [stop] call and no
    other. *)
Theorem tick_gate toTicks time value c w tl f evs :
  _state (this w) = Some tl → callback (this w) = Some f →
  _events (this w) = Some evs →
  (∃ w',
     _tick time value c w = Ok w' ∧
     fired w' = (if decide (mute (this w) = false ∧
                            Timeline.getStateAtTime tl (transport_ticks c) = Started)
                 then (time, value) :: fired w else fired w) ∧
     (length (fired w') = S (length (fired w)) ↔
        mute (this w) = false ∧
        Timeline.getStateAtTime tl (transport_ticks c) = Started) ∧
     heap w' = heap w ∧ this w' = this w ∧ dropped w' = dropped w) ∧
  (∀ t, Timeline.getStateAtTime tl (toTicks t) = Started →
     ∃ w1 tl1,
       stop toTicks t w = Ok w1 ∧
       _state (this w1) = Some tl1 ∧
       Timeline.getStateAtTime tl1 (toTicks t) = Stopped ∧
       Forall2 (λ e e', Event.calls e' = Event.Stop (toTicks t) :: Event.calls e)
               evs (children w1) ∧
       ∀ c', Timeline.getStateAtTime tl1 (transport_ticks c') = Stopped →
         (∀ time' value', ∃ w2,
            _tick time' value' c' w1 = Ok w2 ∧ fired w2 = fired w1) ∧
         (∀ e draw time', ∃ w2,
            trigger e draw time' c' w1 = Ok w2 ∧ fired w2 = fired w1)).
Proof.
  intros Hs Hf He. split.
  - destruct (tick_fired time value c w tl f Hs Hf) as (w' & Hrun & Hfired & Hrest).
    exists w'. split; [done|]. split; [done|]. split; [|done].
    rewrite Hfired. destruct (decide _) as [Hc|Hc]; simpl.
    + by split.
    + split; [lia|done].
  - intros t Hst. eexists _, _.
    split; [by rewrite (stop_spec toTicks t w tl evs Hs He), decide_True|].
    split; [done|].
    split; [exact (getStateAtTime_addEvent (Timeline.mk Stopped (toTicks t) 0) tl)|].
    split.
    { simpl. apply Forall2_fmap_r, Forall_Forall2_diag, Forall_forall.
      intros e _. simpl. by rewrite calls_stop. }
    intros c' Hstopped. split.
    + intros time' value'. eexists. split; [by eapply tick_silent|done].
    + intros e draw time'. eexists. split; [by eapply trigger_silent|done].
Qed.

Lemma tick_gate_witness :
  (∃ w',
     _tick 0%Q (VStr "C2") at_rest playing = Ok w' ∧
     fired w' = (if decide (mute (this playing) = false ∧
                            Timeline.getStateAtTime [Timeline.mk Started 0 0]
                              (transport_ticks at_rest) = Started)
                 then (0%Q, VStr "C2") :: fired playing else fired playing) ∧
     (length (fired w') = S (length (fired playing)) ↔
        mute (this playing) = false ∧
        Timeline.getStateAtTime [Timeline.mk Started 0 0] (transport_ticks at_rest)
        = Started) ∧
     heap w' = heap playing ∧ this w' = this playing ∧ dropped w' = dropped playing) ∧
  (∀ t, Timeline.getStateAtTime [Timeline.mk Started 0 0] (ticks_of t) = Started →
     ∃ w1 tl1,
       stop ticks_of t playing = Ok w1 ∧
       _state (this w1) = Some tl1 ∧
       Timeline.getStateAtTime tl1 (ticks_of t) = Stopped ∧
       Forall2 (λ e e', Event.calls e' = Event.Stop (ticks_of t) :: Event.calls e)
               (children playing) (children w1) ∧
       ∀ c', Timeline.getStateAtTime tl1 (transport_ticks c') = Stopped →
         (∀ time' value', ∃ w2,
            _tick time' value' c' w1 = Ok w2 ∧ fired w2 = fired w1) ∧
         (∀ e draw time', ∃ w2,
            trigger e draw time' c' w1 = Ok w2 ∧ fired w2 = fired w1)).
Proof.
  apply (tick_gate ticks_of 0%Q (VStr "C2") at_rest playing
           [Timeline.mk Started 0 0] 0%nat (children playing)); reflexivity.
Defined.

Lemma restartEvent_spec p c e tl :
  _state p = Some tl →
  (Timeline.getStateAtTime tl (now c) = Started →
     ∃ r, Timeline.getEvent tl (now c) = Some r ∧ Timeline.state r = Started ∧
          _restartEvent p c e = Ok (_startNote p e (Timeline.time r) (Timeline.offset r))) ∧
  (Timeline.getStateAtTime tl (now c) ≠ Started → _restartEvent p c e = Ok e).
Proof.
  intros Hs. unfold _restartEvent, Timeline.getStateAtTime. rewrite Hs. cbn [deref].
  rewrite bind_Ok. destruct (Timeline.getEvent tl (now c)) as [r|]; [|done].
  split.
  - intros Hr. exists r. by rewrite decide_True.
  - intros Hr. by rewrite decide_False.
Qed.

Lemma startNote_calls p e ticks offset :
  (truthy (_loop p) = false →
     Event.calls (_startNote p e ticks offset)
       = Event.Start (ticks + offset) 0 :: Event.calls e) ∧
  (truthy (_loop p) = true → in_window p e →
     Event.calls (_startNote p e ticks offset)
       = Event.Start (ticks + offset) (_startOffset p) :: Event.calls e).
Proof.
  unfold _startNote, Event.start. split.
  - intros ->. by destruct (Timeline.getStateAtTime _ _).
  - intros -> [H1 H2].
    replace (_loopStart p <=? _) with true by (symmetry; apply Z.leb_le; lia).
    replace (_ <? _loopEnd p) with true by (symmetry; apply Z.ltb_lt; lia).
    by destruct (Timeline.getStateAtTime _ _).
Qed.

(** C6: on a live group, [add] appends one child, initialized from the
    group's settings, to the event list, and leaves the other children, the
    Timeline and the callback's invocations as they were.  When the Timeline
    reports [Started] at the current time, [add] runs the positioning
    algorithm on the new child with the tick and the offset of the [Started]
    record in force, so that the child of a group that does not loop, or that
    lies in the loop window, receives its [start] call at once, and the child
    made of a plain value in a group that does not loop has its trigger
    scheduled; when the Timeline does not report [Started] at the current
    time, the child is appended as initialized, without any call. *)
Theorem add_positions_when_started toTicks time value c w tl evs :
  _state (this w) = Some tl → _events (this w) = Some evs →
  ∃ w' e0 e',
    add toTicks time value c w = Ok w' ∧
    _events (this w') = Some (evs ++ [e']) ∧
    children w' = evs ++ [e'] ∧
    _state (this w') = Some tl ∧
    heap w' = (add_args (heap w) time value).2 ∧
    fired w' = fired w ∧ dropped w' = dropped w ∧
    inherits (this w) (toTicks (add_args (heap w) time value).1.1) e0 ∧
    carries (add_args (heap w) time value).1.2 e0 ∧
    (Timeline.getStateAtTime tl (now c) = Started →
       ∃ r, Timeline.getEvent tl (now c) = Some r ∧ Timeline.state r = Started ∧
            e' = _startNote (this w) e0 (Timeline.time r) (Timeline.offset r) ∧
            (truthy (_loop (this w)) = false →
               Event.calls e'
                 = Event.Start (Timeline.time r + Timeline.offset r) 0 :: Event.calls e0) ∧
            (truthy (_loop (this w)) = true → in_window (this w) e0 →
               Event.calls e'
                 = Event.Start (Timeline.time r + Timeline.offset r) (_startOffset (this w))
                   :: Event.calls e0) ∧
            (outside (this w) e0 → e' = e0) ∧
            (∀ x, (add_args (heap w) time value).1.2 = Raw x →
               truthy (_loop (this w)) = false →
               Event.triggers e'
                 = [Timeline.time r + Timeline.offset r
                    + toTicks (add_args (heap w) time value).1.1])) ∧
    (Timeline.getStateAtTime tl (now c) ≠ Started → e' = e0).
Proof.
  intros Hs He.
  destruct (add_spec toTicks time value c w tl evs Hs He) as (e0 & e' & Hadd & Hre & Hin & Hca).
  eexists _, e0, e'. split; [exact Hadd|]. do 6 (split; [done|]).
  do 2 (split; [done|]).
  destruct (restartEvent_spec (this w) c e0 tl Hs) as [Hon Hoff]. split.
  - intros Hst. destruct (Hon Hst) as (r & Hr & Hrs & Hrun).
    rewrite Hrun in Hre. injection Hre as <-.
    exists r. do 3 (split; [done|]).
    destruct (startNote_calls (this w) e0 (Timeline.time r) (Timeline.offset r)) as [H1 H2].
    split; [done|]. split; [done|]. split; [apply startNote_outside|].
    intros x Hx Hnl. rewrite Hx in Hca.
    destruct Hca as (_ & Hst0 & _). destruct Hin as (_ & Hso & _).
    unfold _startNote. rewrite Hnl. unfold Event.start, Event.triggers.
    rewrite Hst0. simpl. rewrite Hso. f_equal. lia.
  - intros Hst. rewrite (Hoff Hst) in Hre. by injection Hre.
Qed.

Lemma add_positions_when_started_witness :
  ∃ w' e0 e' r,
    add ticks_of (VNum 48) (Raw (VStr "E2")) at_rest playing = Ok w' ∧
    _events (this w') = Some (children playing ++ [e']) ∧
    children w' = children playing ++ [e'] ∧
    _state (this w') = Some [Timeline.mk Started 0 0] ∧
    heap w' = heap playing ∧
    fired w' = fired playing ∧ dropped w' = dropped playing ∧
    inherits (this playing) 48 e0 ∧
    carries (Raw (VStr "E2")) e0 ∧
    Timeline.getEvent [Timeline.mk Started 0 0] (now at_rest) = Some r ∧
    Timeline.state r = Started ∧
    e' = _startNote (this playing) e0 (Timeline.time r) (Timeline.offset r) ∧
    Event.calls e' = Event.Start (Timeline.time r + Timeline.offset r) 0 :: Event.calls e0 ∧
    Event.triggers e' = [Timeline.time r + Timeline.offset r + 48].
Proof.
  destruct (add_positions_when_started ticks_of (VNum 48) (Raw (VStr "E2")) at_rest playing
              [Timeline.mk Started 0 0] (children playing) eq_refl eq_refl)
    as (w' & e0 & e' & H1 & H2 & H3 & H4 & H5 & H6 & H7 & H8 & H9 & Hon & _).
  destruct (Hon eq_refl) as (r & R1 & R2 & R3 & R4 & _ & _ & R7).
  exists w', e0, e', r.
  do 9 (split; [assumption|]). do 3 (split; [assumption|]).
  split; [exact (R4 eq_refl)|exact (R7 (VStr "E2") eq_refl eq_refl)].
Defined.

(** C5, as the code has it.  The [probability], [humanize] and
    [playbackRate] setters store the value in the group and assign it to
    every child.  The [loop] setter stores the value, assigns to every child
    the loop start [0], the loop length [loopEnd - loopStart] and the new
    [loop], and runs the loop-window test on it.  The [loopStart] and
    [loopEnd] setters store the converted value; only when the group loops do
    they assign the loop length [loopEnd - loopStart] to every child and run
    the loop-window test on it, and otherwise they leave the children alone.
    The test cancels a child outside [[loopStart, loopEnd)], which stays in
    the list; a child inside the window whose state is [Stopped] is handed to
    the positioning algorithm when the Timeline reports [Started] at the
    current time, and is left as it is when it does not; a child inside the
    window that is started is left as it is. *)
Theorem setters_fan_out toTicks c w tl evs :
  _state (this w) = Some tl → _events (this w) = Some evs →
  (∀ prob, set_probability prob w
     = Ok (assign_events (Some (Event.set_probability prob <$> evs))
             (assign_probability prob w))) ∧
  (∀ variation, set_humanize variation w
     = Ok (assign_events (Some (Event.set_humanize variation <$> evs))
             (assign_humanize variation w))) ∧
  (∀ rate, set_playbackRate rate w
     = Ok (assign_events (Some (Event.set_playbackRate rate <$> evs))
             (assign_playbackRate rate w))) ∧
  (∀ loop, ∃ evs',
     set_loop loop c w = Ok (assign_events (Some evs') (assign_loop loop w)) ∧
     Forall2 (λ e e',
        _testLoopBoundries (this (assign_loop loop w)) c
          (Event.set_loop loop
             (Event.set_loopEnd (_loopEnd (this w) - _loopStart (this w))
                (Event.set_loopStart 0 e))) = Ok e') evs evs') ∧
  (∀ loopEnd,
     if truthy (_loop (this w)) then
       ∃ evs',
         set_loopEnd toTicks loopEnd c w
           = Ok (assign_events (Some evs') (assign_loopEnd (toTicks loopEnd) w)) ∧
         Forall2 (λ e e',
            _testLoopBoundries (this (assign_loopEnd (toTicks loopEnd) w)) c
              (Event.set_loopEnd (toTicks loopEnd - _loopStart (this w)) e) = Ok e')
           evs evs'
     else set_loopEnd toTicks loopEnd c w = Ok (assign_loopEnd (toTicks loopEnd) w)) ∧
  (∀ loopStart,
     if truthy (_loop (this w)) then
       ∃ evs',
         set_loopStart toTicks loopStart c w
           = Ok (assign_events (Some evs') (assign_loopStart (toTicks loopStart) w)) ∧
         Forall2 (λ e e',
            _testLoopBoundries (this (assign_loopStart (toTicks loopStart) w)) c
              (Event.set_loopEnd (_loopEnd (this w) - toTicks loopStart) e) = Ok e')
           evs evs'
     else set_loopStart toTicks loopStart c w
            = Ok (assign_loopStart (toTicks loopStart) w)) ∧
  (∀ p e tl', _state p = Some tl' →
     (¬ in_window p e → _testLoopBoundries p c e = Ok (Event.cancel None e)) ∧
     (in_window p e → Event.state e (transport_ticks c) = Started →
        _testLoopBoundries p c e = Ok e) ∧
     (in_window p e → Event.state e (transport_ticks c) = Stopped →
        Timeline.getStateAtTime tl' (now c) ≠ Started →
        _testLoopBoundries p c e = Ok e) ∧
     (in_window p e → Event.state e (transport_ticks c) = Stopped →
        Timeline.getStateAtTime tl' (now c) = Started →
        ∃ r, Timeline.getEvent tl' (now c) = Some r ∧ Timeline.state r = Started ∧
             _testLoopBoundries p c e
               = Ok (_startNote p e (Timeline.time r) (Timeline.offset r)))) ∧
  (∀ prob, ∃ w',
     set_probability prob w = Ok w' ∧ _probability (this w') = prob ∧
     children w' = Event.set_probability prob <$> evs ∧
     Forall (λ e, Event.probability e = prob) (children w')) ∧
  (∀ variation, ∃ w',
     set_humanize variation w = Ok w' ∧ _humanize (this w') = variation ∧
     children w' = Event.set_humanize variation <$> evs ∧
     Forall (λ e, Event.humanize e = variation) (children w')) ∧
  (∀ rate, ∃ w',
     set_playbackRate rate w = Ok w' ∧ _playbackRate (this w') = rate ∧
     children w' = Event.set_playbackRate rate <$> evs ∧
     Forall (λ e, Event.playbackRate e = rate) (children w')) ∧
  (∀ loop, ∃ w',
     set_loop loop c w = Ok w' ∧ _loop (this w') = loop ∧
     Forall2 (λ e e',
        _testLoopBoundries (this w') c
          (Event.set_loop loop
             (Event.set_loopEnd (_loopEnd (this w) - _loopStart (this w))
                (Event.set_loopStart 0 e))) = Ok e') evs (children w')) ∧
  (∀ loopEnd, ∃ w',
     set_loopEnd toTicks loopEnd c w = Ok w' ∧ _loopEnd (this w') = toTicks loopEnd ∧
     if truthy (_loop (this w)) then
       Forall2 (λ e e',
          _testLoopBoundries (this w') c
            (Event.set_loopEnd (toTicks loopEnd - _loopStart (this w)) e) = Ok e')
         evs (children w')
     else children w' = evs) ∧
  (∀ loopStart, ∃ w',
     set_loopStart toTicks loopStart c w = Ok w' ∧
     _loopStart (this w') = toTicks loopStart ∧
     if truthy (_loop (this w)) then
       Forall2 (λ e e',
          _testLoopBoundries (this w') c
            (Event.set_loopEnd (_loopEnd (this w) - toTicks loopStart) e) = Ok e')
         evs (children w')
     else children w' = evs).
Proof.
  intros Hs He.
  assert (Hloop : ∀ loop, ∃ evs',
     set_loop loop c w = Ok (assign_events (Some evs') (assign_loop loop w)) ∧
     Forall2 (λ e e',
        _testLoopBoundries (this (assign_loop loop w)) c
          (Event.set_loop loop
             (Event.set_loopEnd (_loopEnd (this w) - _loopStart (this w))
                (Event.set_loopStart 0 e))) = Ok e') evs evs').
  { intros loop.
    exact (retest_spec
             (λ p e, Event.set_loop loop
                       (Event.set_loopEnd (_loopEnd p - _loopStart p)
                          (Event.set_loopStart 0 e)))
             c (assign_loop loop w) tl evs Hs He (λ _ _, eq_refl)). }
  assert (HloopEnd : ∀ loopEnd,
     if truthy (_loop (this w)) then
       ∃ evs',
         set_loopEnd toTicks loopEnd c w
           = Ok (assign_events (Some evs') (assign_loopEnd (toTicks loopEnd) w)) ∧
         Forall2 (λ e e',
            _testLoopBoundries (this (assign_loopEnd (toTicks loopEnd) w)) c
              (Event.set_loopEnd (toTicks loopEnd - _loopStart (this w)) e) = Ok e')
           evs evs'
     else set_loopEnd toTicks loopEnd c w = Ok (assign_loopEnd (toTicks loopEnd) w)).
  { intros loopEnd. unfold set_loopEnd.
    change (_loop (this (assign_loopEnd (toTicks loopEnd) w))) with (_loop (this w)).
    destruct (truthy (_loop (this w))); [|done].
    exact (retest_spec (λ p e, Event.set_loopEnd (_loopEnd p - _loopStart p) e)
             c (assign_loopEnd (toTicks loopEnd) w) tl evs Hs He (λ _ _, eq_refl)). }
  assert (HloopStart : ∀ loopStart,
     if truthy (_loop (this w)) then
       ∃ evs',
         set_loopStart toTicks loopStart c w
           = Ok (assign_events (Some evs') (assign_loopStart (toTicks loopStart) w)) ∧
         Forall2 (λ e e',
            _testLoopBoundries (this (assign_loopStart (toTicks loopStart) w)) c
              (Event.set_loopEnd (_loopEnd (this w) - toTicks loopStart) e) = Ok e')
           evs evs'
     else set_loopStart toTicks loopStart c w
            = Ok (assign_loopStart (toTicks loopStart) w)).
  { intros loopStart. unfold set_loopStart.
    change (_loop (this (assign_loopStart (toTicks loopStart) w))) with (_loop (this w)).
    destruct (truthy (_loop (this w))); [|done].
    exact (retest_spec (λ p e, Event.set_loopEnd (_loopEnd p - _loopStart p) e)
             c (assign_loopStart (toTicks loopStart) w) tl evs Hs He (λ _ _, eq_refl)). }
  split; [intros prob; by apply setAll_spec|].
  split; [intros variation; by apply setAll_spec|].
  split; [intros rate; by apply setAll_spec|].
  split; [exact Hloop|]. split; [exact HloopEnd|]. split; [exact HloopStart|].
  split; [|split; [|split; [|split; [|split; [|split]]]]]; last first.
  { intros loopStart. specialize (HloopStart loopStart).
    destruct (truthy (_loop (this w))).
    - destruct HloopStart as (evs' & -> & HF). eexists. split; [done|]. split; [done|].
      exact HF.
    - rewrite HloopStart. eexists. split; [done|]. split; [done|].
      unfold children. simpl. by rewrite He. }
  { intros loopEnd. specialize (HloopEnd loopEnd).
    destruct (truthy (_loop (this w))).
    - destruct HloopEnd as (evs' & -> & HF). eexists. split; [done|]. split; [done|].
      exact HF.
    - rewrite HloopEnd. eexists. split; [done|]. split; [done|].
      unfold children. simpl. by rewrite He. }
  { intros loop. destruct (Hloop loop) as (evs' & -> & HF).
    eexists. split; [done|]. split; [done|]. exact HF. }
  { intros rate. eexists. split; [by apply setAll_spec|]. split; [done|]. split; [done|].
    unfold children. simpl. apply Forall_fmap, Forall_forall. by intros x _. }
  { intros variation. eexists. split; [by apply setAll_spec|]. split; [done|].
    split; [done|].
    unfold children. simpl. apply Forall_fmap, Forall_forall. by intros x _. }
  { intros prob. eexists. split; [by apply setAll_spec|]. split; [done|]. split; [done|].
    unfold children. simpl. apply Forall_fmap, Forall_forall. by intros x _. }
  intros p e tl' Hp. split; [apply testLoopBoundries_outside|].
  assert (Hin : in_window p e →
    _testLoopBoundries p c e
      = if decide (Event.state e (transport_ticks c) = Stopped)
        then _restartEvent p c e else Ok e).
  { intros Hw. unfold _testLoopBoundries. rewrite window_test.
    by rewrite bool_decide_eq_false_2 by tauto. }
  destruct (restartEvent_spec p c e tl' Hp) as [Hon Hoff].
  split; [|split].
  - intros Hw Hst. rewrite (Hin Hw). by rewrite decide_False by congruence.
  - intros Hw Hst Hoffn. rewrite (Hin Hw), decide_True by done. by apply Hoff.
  - intros Hw Hst Hstarted. rewrite (Hin Hw), decide_True by done.
    destruct (Hon Hstarted) as (r & ? & ? & ?). by exists r.
Qed.

Lemma setters_fan_out_witness :
  (∀ prob, set_probability prob playing
     = Ok (assign_events (Some (Event.set_probability prob <$> children playing))
             (assign_probability prob playing))) ∧
  set_loopEnd ticks_of (VNum 96) at_rest playing
    = Ok (assign_loopEnd (ticks_of (VNum 96)) playing).
Proof.
  destruct (setters_fan_out ticks_of at_rest playing [Timeline.mk Started 0 0]
              (children playing) eq_refl eq_refl) as (H1 & _ & _ & _ & H5 & _).
  split; [exact H1|exact (H5 (VNum 96))].
Defined.

(** C5 fails as stated: on the started part that does not loop, assigning
    [loopEnd = 96] stores the value in the group and leaves every child as it
    was.  The child at [144], now outside [[0, 96)], keeps its loop length of
    [192] and its trigger, and has received no [cancel]. *)
Lemma loopEnd_setter_skips_children :
  ∃ w' e,
    set_loopEnd ticks_of (VNum 96) at_rest playing = Ok w' ∧
    _loopStart (this w') = 0 ∧ _loopEnd (this w') = 96 ∧
    children w' = children playing ∧
    children w' !! 2%nat = Some e ∧
    Event.startOffset e = 144 ∧
    ¬ in_window (this w') e ∧
    Event._loopEnd e = 192 ∧
    Event.calls e = [Event.Start 0 0] ∧
    Event.triggers e = [144].
Proof.
  eexists _, _. split; [reflexivity|]. do 4 (split; [reflexivity|]).
  split; [reflexivity|]. split; [|repeat split].
  unfold in_window. simpl. lia.
Qed.

Lemma dormant_same_state e e' :
  Event._state e' = Event._state e → Event.dormant e → Event.dormant e'.
Proof. rewrite !dormant_iff. by intros ->. Qed.






Lemma Forall2_map_r {A} (R : A → A → Prop) (g : A → A) (l : list A) :
  (∀ x, R x (g x)) → Forall2 R l (g <$> l).
Proof. intros H. apply Forall2_fmap_r, Forall_Forall2_diag, Forall_forall. auto. Qed.






(** * Further properties of the group *)

(** ** What every operation keeps true of the children *)

Lemma start_called tick offset e :
  ∃ tl, Event.start tick offset e = Event.called (Event.Start tick (default 0 offset)) tl (Event.disposed e) e.
Proof. unfold Event.start. destruct (Timeline.getStateAtTime _ _); eauto. Qed.

Lemma stop_called tick e :
  ∃ tl, Event.stop tick e = Event.called (Event.Stop tick) tl (Event.disposed e) e.
Proof. unfold Event.stop. destruct (Timeline.getStateAtTime _ _); eauto. Qed.

Lemma cancel_called after e :
  ∃ tl, Event.cancel after e = Event.called (Event.Cancel after) tl (Event.disposed e) e.
Proof. unfold Event.cancel. destruct after; eauto. Qed.

Lemma startNote_called p e ticks offset :
  _startNote p e ticks offset = e ∨
  ∃ cl tl, _startNote p e ticks offset = Event.called cl tl (Event.disposed e) e.
Proof.
  unfold _startNote. destruct (truthy _); [destruct (_ && _)|]; [|by left|];
    right; destruct (start_called (ticks + offset) (Some (_startOffset p)) e) as [tl1 H1];
    destruct (start_called (ticks + offset) None e) as [tl2 H2]; eauto.
Qed.

Lemma restartEvent_called p c e e' :
  _restartEvent p c e = Ok e' →
  e' = e ∨ ∃ cl tl, e' = Event.called cl tl (Event.disposed e) e.
Proof.
  unfold _restartEvent. destruct (_state p) as [tl|]; [|done]. cbn [deref]. rewrite bind_Ok.
  destruct (Timeline.getEvent tl (now c)) as [r|]; [|intros [= <-]; by left].
  destruct (decide _); intros [= <-]; [apply startNote_called|by left].
Qed.

Lemma testLoopBoundries_called p c e e' :
  _testLoopBoundries p c e = Ok e' →
  e' = e ∨ ∃ cl tl, e' = Event.called cl tl (Event.disposed e) e.
Proof.
  unfold _testLoopBoundries. destruct (_ || _).
  - intros [= <-]. right. destruct (cancel_called None e) as [tl H]. eauto.
  - destruct (decide _); [apply restartEvent_called|intros [= <-]; by left].
Qed.

(** An induction principle for the properties of children that depend on the
    group's settings only: a property kept by every method call on a child,
    by the assignments of the setters and by the initialization in [add] is
    kept by every operation. *)
Lemma run_children_ind toTicks (P : Part → Event.t → Prop) (Q : addval → Prop) :
  (∀ p p' e, same_settings p p' → P p e → P p' e) →
  (∀ p e cl tl, P p e → P p (Event.called cl tl (Event.disposed e) e)) →
  (∀ p e z, P p e → P p (Event.set_startOffset z e)) →
  (∀ w q e, P (this w) e → P (this (assign_probability q w)) (Event.set_probability q e)) →
  (∀ w v e, P (this w) e → P (this (assign_humanize v w)) (Event.set_humanize v e)) →
  (∀ w r e, P (this w) e → P (this (assign_playbackRate r w)) (Event.set_playbackRate r e)) →
  (∀ w l e, P (this w) e → P (this (assign_loop l w)) (loop_assigned (this (assign_loop l w)) e)) →
  (∀ w z e, P (this w) e →
     P (this (assign_loopStart z w))
       (if truthy (_loop (this w)) then length_assigned (this (assign_loopStart z w)) e else e)) →
  (∀ w z e, P (this w) e →
     P (this (assign_loopEnd z w))
       (if truthy (_loop (this w)) then length_assigned (this (assign_loopEnd z w)) e else e)) →
  (∀ p time v e, inherits p time e → carries v e → Q v → P p e) →
  (∀ l, Q (Raw (VObj l))) →
  ∀ op c w w' tl evs,
    _state (this w) = Some tl → _events (this w) = Some evs →
    run toTicks op c w = Ok w' →
    (∀ time value, op = OpAdd time value → Q value) →
    Forall (P (this w)) evs → Forall (P (this w')) (children w').
Proof.
  intros Hpart Hcall Hoff Hprob Hhum Hrate Hloop Hls Hle Hadd HQ op c w w' tl evs Hs He.
  assert (Hnote : ∀ p x t o, P p x → P p (_startNote p x t o)).
  { intros p x t o Hx. destruct (startNote_called p x t o) as [->|(cl & tl' & ->)]; auto. }
  assert (Htest : ∀ p x x', _testLoopBoundries p c x = Ok x' → P p x → P p x').
  { intros p x x' Hrun Hx.
    destruct (testLoopBoundries_called p c x x' Hrun) as [->|(cl & tl' & ->)]; auto. }
  destruct op; cbn [run]; intros Hrun Hval Hall.
  - rewrite (start_spec toTicks time offset w tl evs Hs He) in Hrun.
    destruct (decide _) as [Hst|Hst]; injection Hrun as <-.
    + unfold children. by rewrite He.
    + apply Forall_fmap. eapply Forall_impl; [exact Hall|]. intros x Hx.
      apply (Hpart (this w)); [done|]. by apply Hnote.
  - rewrite (stop_spec toTicks time w tl evs Hs He) in Hrun.
    destruct (decide _) as [Hst|Hst]; injection Hrun as <-.
    + apply Forall_fmap. eapply Forall_impl; [exact Hall|]. intros x Hx.
      apply (Hpart (this w)); [done|].
      destruct (stop_called (toTicks time) x) as [tl' ->]. by apply Hcall.
    + unfold children. by rewrite He.
  - destruct (add_spec toTicks time value c w tl evs Hs He)
      as (e0 & e' & Heq & Hre & Hin & Hca).
    rewrite Heq in Hrun. injection Hrun as <-. unfold children. simpl.
    apply Forall_app. split.
    + eapply Forall_impl; [exact Hall|]. intros x Hx. by apply (Hpart (this w)).
    + apply Forall_singleton. apply (Hpart (this w)); [done|].
      assert (H0 : P (this w) e0).
      { eapply Hadd; [exact Hin|exact Hca|]. unfold add_args.
        destruct (own_time (heap w) time) as [[[l o] t]|]; cbn [fst snd]; eauto. }
      destruct (restartEvent_called _ _ _ _ Hre) as [->|(cl & tl' & ->)]; auto.
  - destruct (remove_args (heap w) time value) as [t v] eqn:Hargs.
    unfold remove in Hrun. rewrite Hargs in Hrun. unfold _forEach, events_of in Hrun.
    rewrite He in Hrun. cbn [deref] in Hrun.
    rewrite bind_Ok, (remove_run _ _ w evs He), bind_Ok in Hrun. injection Hrun as <-.
    unfold children. simpl. apply Forall_forall.
    intros x [_ Hx]%list_elem_of_filter. rewrite Forall_forall in Hall.
    apply (Hpart (this w)); [done|]. by apply Hall.
  - rewrite (removeAll_spec w evs He) in Hrun. injection Hrun as <-. constructor.
  - rewrite (cancel_spec after w tl evs Hs He) in Hrun. injection Hrun as <-.
    apply Forall_fmap. eapply Forall_impl; [exact Hall|]. intros x Hx.
    apply (Hpart (this w)); [done|].
    destruct (cancel_called (Some after) x) as [tl' ->]. by apply Hcall.
  - rewrite (set_startOffset_spec offset w evs He) in Hrun. injection Hrun as <-.
    apply Forall_fmap. eapply Forall_impl; [exact Hall|]. intros x Hx.
    apply (Hpart (this w)); [done|]. by apply Hoff.
  - unfold set_probability in Hrun. rewrite (setAll_spec _ _ evs) in Hrun by done.
    injection Hrun as <-. apply Forall_fmap. eapply Forall_impl; [exact Hall|].
    intros x Hx. apply (Hpart (this (assign_probability prob w))); [done|]. by apply Hprob.
  - unfold set_humanize in Hrun. rewrite (setAll_spec _ _ evs) in Hrun by done.
    injection Hrun as <-. apply Forall_fmap. eapply Forall_impl; [exact Hall|].
    intros x Hx. apply (Hpart (this (assign_humanize variation w))); [done|]. by apply Hhum.
  - unfold set_playbackRate in Hrun. rewrite (setAll_spec _ _ evs) in Hrun by done.
    injection Hrun as <-. apply Forall_fmap. eapply Forall_impl; [exact Hall|].
    intros x Hx. apply (Hpart (this (assign_playbackRate rate w))); [done|]. by apply Hrate.
  - destruct (retest_spec
                (λ p e, Event.set_loop loop
                          (Event.set_loopEnd (_loopEnd p - _loopStart p)
                             (Event.set_loopStart 0 e)))
                c (assign_loop loop w) tl evs Hs He (λ _ _, eq_refl))
      as (evs' & Heq & Hrel).
    unfold set_loop in Hrun. cbn zeta in Hrun. rewrite Heq in Hrun. injection Hrun as <-.
    unfold children. simpl. apply Forall_forall. intros x' Hx'.
    apply list_elem_of_lookup in Hx' as [i Hi].
    destruct (Forall2_lookup_r _ _ _ _ _ Hrel Hi) as (x & Hxi & Hxx).
    apply (Hpart (this (assign_loop loop w))); [done|].
    eapply Htest; [exact Hxx|]. apply Hloop.
    rewrite Forall_forall in Hall. apply Hall. by eapply list_elem_of_lookup_2.
  - unfold set_loopStart in Hrun.
    change (_loop (this (assign_loopStart (toTicks loopStart) w))) with (_loop (this w)) in Hrun.
    specialize (Hls w (toTicks loopStart)).
    destruct (truthy (_loop (this w))).
    + destruct (retest_spec (λ p e, Event.set_loopEnd (_loopEnd p - _loopStart p) e)
                  c (assign_loopStart (toTicks loopStart) w) tl evs Hs He (λ _ _, eq_refl))
        as (evs' & Heq & Hrel).
      cbn zeta in Hrun. rewrite Heq in Hrun. injection Hrun as <-.
      unfold children. simpl. apply Forall_forall. intros x' Hx'.
      apply list_elem_of_lookup in Hx' as [i Hi].
      destruct (Forall2_lookup_r _ _ _ _ _ Hrel Hi) as (x & Hxi & Hxx).
      apply (Hpart (this (assign_loopStart (toTicks loopStart) w))); [done|].
      eapply Htest; [exact Hxx|]. apply Hls.
      rewrite Forall_forall in Hall. apply Hall. by eapply list_elem_of_lookup_2.
    + injection Hrun as <-.
      assert (Hc : children (assign_loopStart (toTicks loopStart) w) = evs)
        by (unfold children; simpl; by rewrite He).
      rewrite Hc. eapply Forall_impl; [exact Hall|]. intros x Hx. exact (Hls x Hx).
  - unfold set_loopEnd in Hrun.
    change (_loop (this (assign_loopEnd (toTicks loopEnd) w))) with (_loop (this w)) in Hrun.
    specialize (Hle w (toTicks loopEnd)).
    destruct (truthy (_loop (this w))).
    + destruct (retest_spec (λ p e, Event.set_loopEnd (_loopEnd p - _loopStart p) e)
                  c (assign_loopEnd (toTicks loopEnd) w) tl evs Hs He (λ _ _, eq_refl))
        as (evs' & Heq & Hrel).
      cbn zeta in Hrun. rewrite Heq in Hrun. injection Hrun as <-.
      unfold children. simpl. apply Forall_forall. intros x' Hx'.
      apply list_elem_of_lookup in Hx' as [i Hi].
      destruct (Forall2_lookup_r _ _ _ _ _ Hrel Hi) as (x & Hxi & Hxx).
      apply (Hpart (this (assign_loopEnd (toTicks loopEnd) w))); [done|].
      eapply Htest; [exact Hxx|]. apply Hle.
      rewrite Forall_forall in Hall. apply Hall. by eapply list_elem_of_lookup_2.
    + injection Hrun as <-.
      assert (Hc : children (assign_loopEnd (toTicks loopEnd) w) = evs)
        by (unfold children; simpl; by rewrite He).
      rewrite Hc. eapply Forall_impl; [exact Hall|]. intros x Hx. exact (Hle x Hx).
  - injection Hrun as <-. unfold children. simpl. rewrite He. simpl.
    eapply Forall_impl; [exact Hall|]. intros x Hx. by apply (Hpart (this w)).
  - rewrite (dispose_spec w tl evs Hs He) in Hrun. injection Hrun as <-. constructor.
Qed.

(** X1: the children stay in sync with the settings of their group.  If
    every child of a live group has the group's probability, humanize,
    playback rate and loop, and, when the group loops, the loop length
    [loopEnd - loopStart], then so does every child after any operation, the
    child appended by [add] included. *)
Theorem settings_stay_in_sync toTicks op c w w' tl evs :
  _state (this w) = Some tl → _events (this w) = Some evs →
  run toTicks op c w = Ok w' →
  Forall (in_sync (this w)) evs →
  Forall (in_sync (this w')) (children w').
Proof.
  intros Hs He Hrun.
  refine (run_children_ind toTicks in_sync (λ _, True) _ _ _ _ _ _ _ _ _ _ _
            op c w w' tl evs Hs He Hrun _).
  - intros p p' e (H1 & H2 & H3 & H4 & H5 & H6) (I1 & I2 & I3 & I4 & I5).
    unfold in_sync. rewrite H1, H2, H3, H4, H5, H6. done.
  - intros p e cl tl0 Hx. exact Hx.
  - intros p e z Hx. exact Hx.
  - intros w0 q e (I1 & I2 & I3 & I4 & I5). by repeat split.
  - intros w0 v e (I1 & I2 & I3 & I4 & I5). by repeat split.
  - intros w0 r e (I1 & I2 & I3 & I4 & I5). by repeat split.
  - intros w0 l e (I1 & I2 & I3 & I4 & I5). by repeat split.
  - intros w0 z e (I1 & I2 & I3 & I4 & I5). unfold in_sync.
    change (_loop (this (assign_loopStart z w0))) with (_loop (this w0)).
    destruct (truthy (_loop (this w0))); by repeat split.
  - intros w0 z e (I1 & I2 & I3 & I4 & I5). unfold in_sync.
    change (_loop (this (assign_loopEnd z w0))) with (_loop (this w0)).
    destruct (truthy (_loop (this w0))); by repeat split.
  - intros p time v e (_ & _ & J1 & J2 & J3 & J4 & J5) _ _. by repeat split.
  - done.
  - done.
Qed.

Lemma settings_stay_in_sync_witness :
  Forall (in_sync (this (the (run ticks_of (OpLoop (VBool true)) at_rest playing))))
    (children (the (run ticks_of (OpLoop (VBool true)) at_rest playing))).
Proof.
  apply (settings_stay_in_sync ticks_of (OpLoop (VBool true)) at_rest playing _
           [Timeline.mk Started 0 0] (children playing)); try reflexivity.
  repeat constructor; intros [=].
Defined.

(** X2: the group owns its children.  If every child of a live group has
    the group's [_tick] as its callback and has not been disposed, then so
    has every child after any operation, provided an event handed to [add]
    has not been disposed: a disposed child is never left in the list. *)
Theorem children_stay_owned toTicks op c w w' tl evs :
  _state (this w) = Some tl → _events (this w) = Some evs →
  run toTicks op c w = Ok w' →
  (∀ time ev, op = OpAdd time (Child ev) → Event.disposed ev = false) →
  Forall owned evs →
  Forall owned (children w').
Proof.
  intros Hs He Hrun Hev.
  refine (run_children_ind toTicks (λ _, owned) (λ v, Event.disposed (origin v) = false)
            _ _ _ _ _ _ _ _ _ _ _ op c w w' tl evs Hs He Hrun _).
  - done.
  - intros p e cl tl0 Hx. exact Hx.
  - intros p e z Hx. exact Hx.
  - intros w0 q e Hx. exact Hx.
  - intros w0 v e Hx. exact Hx.
  - intros w0 r e Hx. exact Hx.
  - intros w0 l e Hx. exact Hx.
  - intros w0 z e Hx. by destruct (truthy _).
  - intros w0 z e Hx. by destruct (truthy _).
  - intros p time v e (J1 & _) (_ & _ & _ & J2 & _) Hv. split; congruence.
  - done.
  - intros time [v|ev] ->; [done|]. by eapply Hev.
Qed.

Lemma children_stay_owned_witness :
  Forall owned
    (children (the (run ticks_of (OpAdd (VNum 48) (Raw (VStr "E2"))) at_rest playing))).
Proof.
  apply (children_stay_owned ticks_of (OpAdd (VNum 48) (Raw (VStr "E2"))) at_rest playing _
           [Timeline.mk Started 0 0] (children playing)); try reflexivity.
  - intros time ev [=].
  - repeat constructor.
Defined.

Lemma length_filter_split {A} (P : A → Prop) `{∀ x, Decision (P x)} (l : list A) :
  (length (filter (λ x, ¬ P x) l) + length (filter P l) = length l)%nat.
Proof.
  induction l as [|x l IH]; [done|].
  destruct (decide (P x)).
  - rewrite filter_cons_False by tauto. rewrite filter_cons_True by done. simpl. lia.
  - rewrite filter_cons_True by done. rewrite filter_cons_False by done. simpl. lia.
Qed.

Lemma let_go_dispose e : let_go (Event.dispose e).
Proof. done. Qed.

(** What an operation does besides updating the children in place. *)
Lemma run_effects toTicks op c w w' tl evs :
  _state (this w) = Some tl → _events (this w) = Some evs →
  run toTicks op c w = Ok w' →
  fired w' = fired w ∧
  heap w' = match op with
            | OpAdd time value => (add_args (heap w) time value).2
            | _ => heap w
            end ∧
  (¬ writes_timeline op → _state (this w') = _state (this w)) ∧
  ∃ gone,
    dropped w' = gone ++ dropped w ∧
    Forall let_go gone ∧
    (length (children w') + length gone
     = length evs + match op with OpAdd _ _ => 1 | _ => 0 end)%nat ∧
    (gone ≠ [] → match op with
                 | OpRemove _ _ | OpRemoveAll | OpDispose => True
                 | _ => False
                 end).
Proof.
  intros Hs He. destruct op; cbn [run writes_timeline].
  - rewrite (start_spec toTicks time offset w tl evs Hs He).
    destruct (decide _) as [Hst|Hst]; intros [= <-]; (do 3 (split; [done|]));
      exists []; (do 2 (split; [done|])); (split; [|done]).
    + unfold children. rewrite He. simpl. lia.
    + unfold children. simpl. rewrite length_fmap. lia.
  - rewrite (stop_spec toTicks time w tl evs Hs He).
    destruct (decide _) as [Hst|Hst]; intros [= <-]; (do 3 (split; [done|]));
      exists []; (do 2 (split; [done|])); (split; [|done]).
    + unfold children. simpl. rewrite length_fmap. lia.
    + unfold children. rewrite He. simpl. lia.
  - destruct (add_spec toTicks time value c w tl evs Hs He)
      as (e0 & e' & -> & Hre & Hin & Hca).
    intros [= <-]. do 3 (split; [done|]).
    exists []. do 2 (split; [done|]). split; [|done].
    unfold children. simpl. rewrite length_app. simpl. lia.
  - destruct (remove_args (heap w) time value) as [t v] eqn:Hargs.
    unfold remove. rewrite Hargs. unfold _forEach, events_of. rewrite He. cbn [deref].
    rewrite bind_Ok, (remove_run _ _ w evs He), bind_Ok. intros [= <-].
    do 3 (split; [done|]).
    exists (Event.dispose <$> filter (matches (toTicks t) v) evs).
    split; [done|]. split; [|split; [|done]].
    + apply Forall_fmap, Forall_forall. intros x _. apply let_go_dispose.
    + unfold children. simpl. rewrite length_fmap.
      pose proof (length_filter_split (matches (toTicks t) v) evs). lia.
  - rewrite (removeAll_spec w evs He). intros [= <-]. do 3 (split; [done|]).
    exists (Event.dispose <$> evs). split; [done|]. split; [|split; [|done]].
    + apply Forall_fmap, Forall_forall. intros x _. apply let_go_dispose.
    + unfold children. simpl. rewrite length_fmap. lia.
  - rewrite (cancel_spec after w tl evs Hs He). intros [= <-]. do 3 (split; [done|]).
    exists []. do 2 (split; [done|]). split; [|done].
    unfold children. simpl. rewrite length_fmap. lia.
  - rewrite (set_startOffset_spec offset w evs He). intros [= <-]. do 3 (split; [done|]).
    exists []. do 2 (split; [done|]). split; [|done].
    unfold children. simpl. rewrite length_fmap. lia.
  - unfold set_probability. rewrite (setAll_spec _ _ evs) by done. intros [= <-].
    do 3 (split; [done|]). exists []. do 2 (split; [done|]). split; [|done].
    unfold children. simpl. rewrite length_fmap. lia.
  - unfold set_humanize. rewrite (setAll_spec _ _ evs) by done. intros [= <-].
    do 3 (split; [done|]). exists []. do 2 (split; [done|]). split; [|done].
    unfold children. simpl. rewrite length_fmap. lia.
  - unfold set_playbackRate. rewrite (setAll_spec _ _ evs) by done. intros [= <-].
    do 3 (split; [done|]). exists []. do 2 (split; [done|]). split; [|done].
    unfold children. simpl. rewrite length_fmap. lia.
  - destruct (retest_spec
                (λ p e, Event.set_loop loop
                          (Event.set_loopEnd (_loopEnd p - _loopStart p)
                             (Event.set_loopStart 0 e)))
                c (assign_loop loop w) tl evs Hs He (λ _ _, eq_refl))
      as (evs' & Heq & Hrel).
    unfold set_loop. cbn zeta. rewrite Heq. intros [= <-]. do 3 (split; [done|]).
    exists []. do 2 (split; [done|]). split; [|done].
    unfold children. simpl. rewrite <- (Forall2_length _ _ _ Hrel). lia.
  - unfold set_loopStart.
    change (_loop (this (assign_loopStart (toTicks loopStart) w))) with (_loop (this w)).
    destruct (truthy (_loop (this w))).
    + destruct (retest_spec (λ p e, Event.set_loopEnd (_loopEnd p - _loopStart p) e)
                  c (assign_loopStart (toTicks loopStart) w) tl evs Hs He (λ _ _, eq_refl))
        as (evs' & Heq & Hrel).
      cbn zeta. rewrite Heq. intros [= <-]. do 3 (split; [done|]).
      exists []. do 2 (split; [done|]). split; [|done].
      unfold children. simpl. rewrite <- (Forall2_length _ _ _ Hrel). lia.
    + intros [= <-]. do 3 (split; [done|]). exists []. do 2 (split; [done|]).
      split; [|done]. unfold children. simpl. rewrite He. simpl. lia.
  - unfold set_loopEnd.
    change (_loop (this (assign_loopEnd (toTicks loopEnd) w))) with (_loop (this w)).
    destruct (truthy (_loop (this w))).
    + destruct (retest_spec (λ p e, Event.set_loopEnd (_loopEnd p - _loopStart p) e)
                  c (assign_loopEnd (toTicks loopEnd) w) tl evs Hs He (λ _ _, eq_refl))
        as (evs' & Heq & Hrel).
      cbn zeta. rewrite Heq. intros [= <-]. do 3 (split; [done|]).
      exists []. do 2 (split; [done|]). split; [|done].
      unfold children. simpl. rewrite <- (Forall2_length _ _ _ Hrel). lia.
    + intros [= <-]. do 3 (split; [done|]). exists []. do 2 (split; [done|]).
      split; [|done]. unfold children. simpl. rewrite He. simpl. lia.
  - intros [= <-]. do 3 (split; [done|]). exists []. do 2 (split; [done|]).
    split; [|done]. unfold children. simpl. rewrite He. simpl. lia.
  - rewrite (dispose_spec w tl evs Hs He). intros [= <-]. do 3 (split; [done|]).
    exists (Event.dispose <$> evs). split; [done|]. split; [|split; [|done]].
    + apply Forall_fmap, Forall_forall. intros x _. apply let_go_dispose.
    + unfold children. simpl. rewrite length_fmap. lia.
Qed.

(** X3: no operation on a live group invokes the user callback, which only
    [_tick] does; none but [add] touches the caller's heap; and none but
    [start], [stop], [cancel] and [dispose] writes to the Timeline. *)
Theorem operations_leave_alone toTicks op c w w' tl evs :
  _state (this w) = Some tl → _events (this w) = Some evs →
  run toTicks op c w = Ok w' →
  fired w' = fired w ∧
  ((∀ time value, op ≠ OpAdd time value) → heap w' = heap w) ∧
  (∀ time value, op = OpAdd time value → own_time (heap w) time = None →
     heap w' = heap w) ∧
  (¬ writes_timeline op → _state (this w') = _state (this w)).
Proof.
  intros Hs He Hrun.
  destruct (run_effects toTicks op c w w' tl evs Hs He Hrun) as (H1 & H2 & H3 & _).
  split; [done|]. split; [|split; [|done]].
  - intros Hop. rewrite H2. destruct op; try done. by destruct (Hop time value).
  - intros time value -> Hown. rewrite H2. unfold add_args. by rewrite Hown.
Qed.

Lemma operations_leave_alone_witness :
  fired (the (run ticks_of (OpRemove (VNum 96) VUndef) at_rest playing)) = fired playing ∧
  ((∀ time value, OpRemove (VNum 96) VUndef ≠ OpAdd time value) →
     heap (the (run ticks_of (OpRemove (VNum 96) VUndef) at_rest playing)) = heap playing) ∧
  (∀ time value, OpRemove (VNum 96) VUndef = OpAdd time value →
     own_time (heap playing) time = None →
     heap (the (run ticks_of (OpRemove (VNum 96) VUndef) at_rest playing)) = heap playing) ∧
  (¬ writes_timeline (OpRemove (VNum 96) VUndef) →
     _state (this (the (run ticks_of (OpRemove (VNum 96) VUndef) at_rest playing)))
     = _state (this playing)).
Proof.
  apply (operations_leave_alone ticks_of (OpRemove (VNum 96) VUndef) at_rest playing _
           [Timeline.mk Started 0 0] (children playing)); vm_compute; reflexivity.
Defined.



(** X5: a disposed group is unusable.  Once the Timeline and the child list
    are [null], every operation faults with a [TypeError], except [mute] and
    the [loopStart] and [loopEnd] setters of a group that does not loop,
    which dereference neither; [at] and the [length] property fault too,
    and a late [_tick] faults unless the group is muted. *)
Theorem disposed_group_faults toTicks ticksToSeconds op c w :
  _state (this w) = None → _events (this w) = None →
  (spares (this w) op → ∃ w', run toTicks op c w = Ok w' ∧ children w' = []) ∧
  (¬ spares (this w) op → run toTicks op c w = Throw TypeError) ∧
  (∀ time value, at_ toTicks ticksToSeconds time value c w = Throw TypeError) ∧
  (∀ time value, _tick time value c w = if mute (this w) then Ok w else Throw TypeError) ∧
  get_length w = Throw TypeError.
Proof.
  intros Hs He.
  assert (Hfor : ∀ cb w0, _events (this w0) = None → _forEach cb w0 = Throw TypeError).
  { intros cb w0 H0. unfold _forEach, events_of. by rewrite H0. }
  split; [|split; [|split; [|split]]].
  - destruct op; try done; cbn [spares run].
    + unfold set_loopStart.
      change (_loop (this (assign_loopStart (toTicks loopStart) w))) with (_loop (this w)).
      intros ->. eexists. split; [done|]. unfold children. simpl. by rewrite He.
    + unfold set_loopEnd.
      change (_loop (this (assign_loopEnd (toTicks loopEnd) w))) with (_loop (this w)).
      intros ->. eexists. split; [done|]. unfold children. simpl. by rewrite He.
    + intros _. eexists. split; [done|]. unfold children. simpl. by rewrite He.
  - destruct op; cbn [spares run]; intros Hsp.
    + unfold start, state_of. by rewrite Hs.
    + unfold stop, state_of. by rewrite Hs.
    + unfold add. destruct (own_time (heap w) time) as [[[l o] t]|];
        unfold events_of; simpl; by rewrite He.
    + unfold remove. destruct (remove_args (heap w) time value). by apply Hfor.
    + unfold removeAll. by rewrite Hfor.
    + unfold cancel. by rewrite Hfor.
    + unfold set_startOffset. by apply Hfor.
    + unfold set_probability, _setAll. by apply Hfor.
    + unfold set_humanize, _setAll. by apply Hfor.
    + unfold set_playbackRate, _setAll. by apply Hfor.
    + unfold set_loop. by apply Hfor.
    + unfold set_loopStart.
      change (_loop (this (assign_loopStart (toTicks loopStart) w))) with (_loop (this w)).
      destruct (truthy (_loop (this w))); [by apply Hfor|]. by destruct Hsp.
    + unfold set_loopEnd.
      change (_loop (this (assign_loopEnd (toTicks loopEnd) w))) with (_loop (this w)).
      destruct (truthy (_loop (this w))); [by apply Hfor|]. by destruct Hsp.
    + by destruct Hsp.
    + unfold dispose, removeAll. by rewrite Hfor.
  - intros time value. unfold at_, events_of. by rewrite He.
  - intros time value. unfold _tick, state_of. rewrite Hs. by destruct (mute (this w)).
  - unfold get_length, events_of. by rewrite He.
Qed.

Lemma disposed_group_faults_witness :
  run ticks_of (OpStart (VNum 0) VUndef) at_rest (the (dispose playing)) = Throw TypeError ∧
  run ticks_of OpDispose at_rest (the (dispose playing)) = Throw TypeError ∧
  (∃ w', run ticks_of (OpLoopEnd (VNum 96)) at_rest (the (dispose playing)) = Ok w' ∧
         children w' = []) ∧
  (∀ time value,
     at_ ticks_of seconds_of time value at_rest (the (dispose playing)) = Throw TypeError) ∧
  (∀ time value,
     _tick time value at_rest (the (dispose playing))
     = if mute (this (the (dispose playing))) then Ok (the (dispose playing))
       else Throw TypeError) ∧
  get_length (the (dispose playing)) = Throw TypeError.
Proof.
  destruct (disposed_group_faults ticks_of seconds_of (OpStart (VNum 0) VUndef) at_rest
              (the (dispose playing)) eq_refl eq_refl) as (_ & H2 & H3 & H4 & H5).
  destruct (disposed_group_faults ticks_of seconds_of OpDispose at_rest
              (the (dispose playing)) eq_refl eq_refl) as (_ & H2' & _).
  destruct (disposed_group_faults ticks_of seconds_of (OpLoopEnd (VNum 96)) at_rest
              (the (dispose playing)) eq_refl eq_refl) as (H1 & _).
  split; [exact (H2 (λ x, x))|]. split; [exact (H2' (λ x, x))|].
  split; [exact (H1 eq_refl)|]. split; [exact H3|]. split; [exact H4|exact H5].
Defined.

(** X6: [remove] is idempotent.  A second [remove] with the same arguments
    finds nothing to take out and leaves the world as the first left it. *)
Theorem remove_twice toTicks time value w w1 evs :
  _events (this w) = Some evs →
  remove toTicks time value w = Ok w1 →
  remove toTicks time value w1 = Ok w1.
Proof.
  intros He. unfold remove.
  destruct (remove_args (heap w) time value) as [t v] eqn:Hargs.
  unfold _forEach, events_of. rewrite He. cbn [deref].
  rewrite bind_Ok, (remove_run _ _ w evs He), bind_Ok. intros [= <-].
  change (heap (with_children _ _ w)) with (heap w). rewrite Hargs.
  set (k := filter (λ e, ¬ matches (toTicks t) v e) evs).
  set (d := (Event.dispose <$> filter (matches (toTicks t) v) evs) ++ dropped w).
  assert (Hk : _events (this (with_children k d w)) = Some k) by done.
  rewrite Hk. cbn [deref]. rewrite bind_Ok, (remove_run _ _ _ k Hk), bind_Ok.
  assert (Hnone : Forall (λ e, ¬ matches (toTicks t) v e) k).
  { apply Forall_forall. by intros x [Hx _]%list_elem_of_filter. }
  destruct (filter_none (matches (toTicks t) v) k Hnone) as [-> ->].
  rewrite fmap_nil, app_nil_l. by rewrite (with_children_self _ k Hk).
Qed.

Lemma remove_twice_witness :
  remove ticks_of (VNum 96) VUndef (the (remove ticks_of (VNum 96) VUndef playing))
  = Ok (the (remove ticks_of (VNum 96) VUndef playing)).
Proof.
  apply (remove_twice ticks_of (VNum 96) VUndef playing _ (children playing));
    vm_compute; reflexivity.
Defined.

(** X7: [remove] undoes [add].  On a live group with no child at a tick,
    adding a value at that tick and then removing by that time alone leaves
    the children as they were; the child that was added is the one disposed
    and let go of, and the Timeline and the heap are untouched. *)
Theorem add_then_remove toTicks time value c w tl evs :
  _state (this w) = Some tl → _events (this w) = Some evs →
  own_time (heap w) time = None →
  Forall (λ e, Event.startOffset e ≠ toTicks time) evs →
  ∃ w1 w2 e,
    add toTicks time (Raw value) c w = Ok w1 ∧
    remove toTicks time VUndef w1 = Ok w2 ∧
    children w1 = evs ++ [e] ∧ Event.value e = value ∧
    children w2 = evs ∧
    dropped w2 = Event.dispose e :: dropped w ∧
    _state (this w2) = Some tl ∧ heap w2 = heap w.
Proof.
  intros Hs He Hown Hfree.
  destruct (add_spec toTicks time (Raw value) c w tl evs Hs He)
    as (e0 & e' & Hadd & Hre & Hin & Hca).
  unfold add_args in *. rewrite Hown in *. cbn [fst snd] in *.
  assert (Hoff : Event.startOffset e' = toTicks time).
  { rewrite (restartEvent_startOffset _ _ _ _ Hre). by destruct Hin as (_ & -> & _). }
  eexists _, _, e'. split; [exact Hadd|].
  set (w1 := assign_heap (heap w) (assign_events (Some (evs ++ [e'])) w)).
  assert (H1 : _events (this w1) = Some (evs ++ [e'])) by done.
  assert (Hm : matches (toTicks time) VUndef e') by (split; [done|by left]).
  assert (Hkeep : filter (λ e, ¬ matches (toTicks time) VUndef e) (evs ++ [e']) = evs).
  { rewrite filter_app, filter_cons_False, filter_nil, app_nil_r by tauto.
    apply filter_none. eapply Forall_impl; [exact Hfree|].
    intros x Hx [Hy _]. done. }
  assert (Hgone : filter (matches (toTicks time) VUndef) (evs ++ [e']) = [e']).
  { rewrite filter_app, filter_cons_True, filter_nil by done.
    replace (filter (matches (toTicks time) VUndef) evs) with (@nil Event.t); [done|].
    symmetry. apply filter_none. eapply Forall_impl; [exact Hfree|].
    intros x Hx [Hy _]. done. }
  split; [|split; [done|split]].
  - unfold remove, remove_args.
    change (heap w1) with (heap w). rewrite Hown.
    unfold _forEach, events_of. rewrite H1. cbn [deref].
    rewrite bind_Ok, (remove_run _ _ w1 _ H1), bind_Ok. rewrite Hkeep, Hgone. done.
  - rewrite (restartEvent_value _ _ _ _ Hre). by destruct Hca as [-> _].
  - done.
Qed.

Lemma add_then_remove_witness :
  ∃ w1 w2 e,
    add ticks_of (VNum 48) (Raw (VStr "E2")) at_rest playing = Ok w1 ∧
    remove ticks_of (VNum 48) VUndef w1 = Ok w2 ∧
    children w1 = children playing ++ [e] ∧ Event.value e = VStr "E2" ∧
    children w2 = children playing ∧
    dropped w2 = Event.dispose e :: dropped playing ∧
    _state (this w2) = Some [Timeline.mk Started 0 0] ∧ heap w2 = heap playing.
Proof.
  apply (add_then_remove ticks_of (VNum 48) (VStr "E2") at_rest playing
           [Timeline.mk Started 0 0] (children playing)); try reflexivity.
  repeat constructor; intros [=].
Defined.

(** X8: [removeAll] empties a group without making it unusable.  On a group
    whose child list is not [null] it succeeds and leaves no child, a second
    [removeAll] changes nothing more, the Timeline is untouched, and [add]
    on the emptied live group appends a first child again. *)
Theorem removeAll_empties toTicks w evs :
  _events (this w) = Some evs →
  ∃ w1,
    removeAll w = Ok w1 ∧
    children w1 = [] ∧
    get_length w1 = Ok 0%nat ∧
    removeAll w1 = Ok w1 ∧
    _state (this w1) = _state (this w) ∧
    (∀ time value c, is_Some (_state (this w)) →
       ∃ w2 e, add toTicks time value c w1 = Ok w2 ∧ children w2 = [e]).
Proof.
  intros He. eexists. split; [by apply removeAll_spec|].
  split; [done|]. split; [done|]. split; [done|]. split; [done|].
  intros time value c [tl Hs].
  destruct (add_spec toTicks time value c
              (with_children [] ((Event.dispose <$> evs) ++ dropped w) w) tl [])
    as (e0 & e' & Hadd & _); [done|done|].
  eexists _, e'. split; [exact Hadd|done].
Qed.

Lemma removeAll_empties_witness :
  ∃ w1,
    removeAll playing = Ok w1 ∧
    children w1 = [] ∧
    get_length w1 = Ok 0%nat ∧
    removeAll w1 = Ok w1 ∧
    _state (this w1) = _state (this playing) ∧
    (∀ time value c, is_Some (_state (this playing)) →
       ∃ w2 e, add ticks_of time value c w1 = Ok w2 ∧ children w2 = [e]).
Proof.
  apply (removeAll_empties ticks_of playing (children playing)). reflexivity.
Defined.

(** X9: an effective [start].  When the Timeline does not report [Started]
    at the tick of [start(time, offset)], the call records [Started] with the
    tick and the offset (the conversion of [0] when none is given), so that
    the record is the one in force at that tick, and positions every child,
    in place: in a group that does not loop each child receives
    [start(tick + offset)]; in a looping group a child inside the loop window
    receives [start(tick + offset, startOffset)] and a child outside it is
    left untouched. *)
Theorem start_positions_children toTicks time offset w tl evs :
  _state (this w) = Some tl → _events (this w) = Some evs →
  Timeline.getStateAtTime tl (toTicks time) ≠ Started →
  ∃ w1 tl1,
    start toTicks time offset w = Ok w1 ∧
    _state (this w1) = Some tl1 ∧
    Timeline.getEvent tl1 (toTicks time)
      = Some (Timeline.mk Started (toTicks time) (toTicks (defaultArg offset (VNum 0)))) ∧
    length tl1 = S (length tl) ∧
    Forall2 (λ e e',
       if truthy (_loop (this w)) then
         if decide (in_window (this w) e) then
           Event.calls e'
             = Event.Start (toTicks time + toTicks (defaultArg offset (VNum 0)))
                 (_startOffset (this w)) :: Event.calls e
         else e' = e
       else
         Event.calls e'
           = Event.Start (toTicks time + toTicks (defaultArg offset (VNum 0))) 0
               :: Event.calls e)
      evs (children w1).
Proof.
  intros Hs He Hst. eexists _, _.
  split; [by rewrite (start_spec toTicks time offset w tl evs Hs He), decide_False|].
  split; [done|].
  split; [exact (search_addEvent (Timeline.mk Started (toTicks time) _) tl None)|].
  split; [by rewrite length_addEvent|].
  cbn zeta. unfold children. simpl. apply Forall2_map_r. intros e.
  destruct (startNote_calls (this w) e (toTicks time)
              (toTicks (defaultArg offset (VNum 0)))) as [H1 H2].
  destruct (truthy (_loop (this w))) eqn:Hloop; [|by apply H1].
  destruct (decide (in_window (this w) e)) as [Hin|Hout]; [by apply H2|].
  by apply startNote_outside.
Qed.

Lemma start_positions_children_witness :
  ∃ w1 tl1,
    start ticks_of (VNum 0) VUndef looping = Ok w1 ∧
    _state (this w1) = Some tl1 ∧
    Timeline.getEvent tl1 (ticks_of (VNum 0))
      = Some (Timeline.mk Started (ticks_of (VNum 0))
                (ticks_of (defaultArg VUndef (VNum 0)))) ∧
    length tl1 = S (length ([] : Timeline.t)) ∧
    Forall2 (λ e e',
       if truthy (_loop (this looping)) then
         if decide (in_window (this looping) e) then
           Event.calls e'
             = Event.Start (ticks_of (VNum 0) + ticks_of (defaultArg VUndef (VNum 0)))
                 (_startOffset (this looping)) :: Event.calls e
         else e' = e
       else
         Event.calls e'
           = Event.Start (ticks_of (VNum 0) + ticks_of (defaultArg VUndef (VNum 0))) 0
               :: Event.calls e)
      (children looping) (children w1).
Proof.
  apply (start_positions_children ticks_of (VNum 0) VUndef looping []
           (children looping)); try reflexivity.
  intros [=].
Defined.

(** X10: the [loop] setter cancels what lies outside the window, whatever
    value it is given.  After [loop = value] on a live group, the children
    are as many as before, each has the new [loop], the loop start [0] and
    the loop length [loopEnd - loopStart], and every child outside
    [[loopStart, loopEnd)] has just been cancelled and has no trigger left,
    also when looping is being switched off. *)
Theorem loop_setter_cancels_outside loop c w tl evs :
  _state (this w) = Some tl → _events (this w) = Some evs →
  ∃ w',
    set_loop loop c w = Ok w' ∧
    _loop (this w') = loop ∧
    length (children w') = length evs ∧
    Forall (λ e',
       Event.loop e' = loop ∧ Event._loopStart e' = 0 ∧
       Event._loopEnd e' = _loopEnd (this w) - _loopStart (this w) ∧
       (¬ in_window (this w') e' →
          Event.dormant e' ∧ head (Event.calls e') = Some (Event.Cancel None)))
      (children w').
Proof.
  intros Hs He.
  destruct (retest_spec
              (λ p e, Event.set_loop loop
                        (Event.set_loopEnd (_loopEnd p - _loopStart p)
                           (Event.set_loopStart 0 e)))
              c (assign_loop loop w) tl evs Hs He (λ _ _, eq_refl))
    as (evs' & Heq & Hrel).
  eexists. split; [exact Heq|]. split; [done|].
  split; [symmetry; exact (Forall2_length _ _ _ Hrel)|].
  unfold children. simpl. apply Forall_forall. intros x' Hx'.
  apply list_elem_of_lookup in Hx' as [i Hi].
  destruct (Forall2_lookup_r _ _ _ _ _ Hrel Hi) as (x & Hxi & Hxx).
  set (x0 := Event.set_loop loop
                (Event.set_loopEnd (_loopEnd (this (assign_loop loop w))
                                    - _loopStart (this (assign_loop loop w)))
                   (Event.set_loopStart 0 x))) in Hxx.
  pose proof (testLoopBoundries_startOffset _ _ _ _ Hxx) as Hoff.
  assert (Hfields : Event.loop x' = loop ∧ Event._loopStart x' = 0 ∧
                    Event._loopEnd x' = _loopEnd (this w) - _loopStart (this w)).
  { by destruct (testLoopBoundries_called _ _ _ _ Hxx) as [->|(cl & tl' & ->)]. }
  destruct Hfields as (F1 & F2 & F3). do 3 (split; [done|]). intros Hout.
  assert (Hout0 : ¬ in_window (this (assign_loop loop w)) x0).
  { unfold in_window in *. rewrite <- Hoff. exact Hout. }
  rewrite testLoopBoundries_outside in Hxx by exact Hout0.
  assert (Hx' : x' = Event.cancel None x0) by congruence.
  by rewrite Hx'.
Qed.

Lemma loop_setter_cancels_outside_witness :
  ∃ w',
    set_loop (VBool false) at_rest looping_started = Ok w' ∧
    _loop (this w') = VBool false ∧
    length (children w') = length (children looping_started) ∧
    Forall (λ e',
       Event.loop e' = VBool false ∧ Event._loopStart e' = 0 ∧
       Event._loopEnd e' = _loopEnd (this looping_started) - _loopStart (this looping_started) ∧
       (¬ in_window (this w') e' →
          Event.dormant e' ∧ head (Event.calls e') = Some (Event.Cancel None)))
      (children w').
Proof.
  apply (loop_setter_cancels_outside (VBool false) at_rest looping_started
           [Timeline.mk Started 0 0] (children looping_started)); reflexivity.
Defined.

Lemma forEach_loop_visits (g : Event.t → Event.t) cb w0 :
  (∀ e i k, cb e i (assign_events (Some k) w0)
            = Ok (assign_events (Some (<[i:=g e]> k)) w0)) →
  ∀ (n : nat) k, (n ≤ length k)%nat →
  forEach_loop cb n (assign_events (Some k) w0)
  = Ok (reverse (imap pair (take n k)),
        assign_events (Some ((g <$> take n k) ++ drop n k)) w0).
Proof.
  intros Hcb. induction n as [|i IH]; intros k Hn.
  - done.
  - destruct (lookup_lt_is_Some_2 k i) as [e He]; [lia|].
    specialize (IH (<[i:=g e]> k) ltac:(rewrite length_insert; lia)).
    cbn [forEach_loop].
    change (events_of (assign_events (Some k) w0)) with (Ok k).
    rewrite bind_Ok, He. cbn [deref]. rewrite bind_Ok, Hcb, bind_Ok, IH, bind_Ok.
    cbn [fst snd]. rewrite take_insert_ge by lia.
    rewrite (take_S_r k i e He), visits_snoc, length_take_le by lia.
    do 3 f_equal. rewrite fmap_app, <- app_assoc. f_equal.
    rewrite (drop_S (<[i:=g e]> k) (g e) i) by (apply list_lookup_insert_eq; lia).
    by rewrite drop_insert_lt by lia.
Qed.

(** X11: [_forEach] walks the children from the last to the first.  For a
    callback that only updates, in place, the child it is handed, the
    iteration calls it exactly once on every child, in decreasing order of
    index, each time with the child as it was before the iteration; the
    group ends with every child updated, in the same order. *)
Theorem forEach_walks_backwards (g : Event.t → Event.t) cb w k :
  _events (this w) = Some k →
  (∀ e i k, cb e i (assign_events (Some k) w)
            = Ok (assign_events (Some (<[i:=g e]> k)) w)) →
  _forEach_visits cb w = Ok (reverse (imap pair k)) ∧
  _forEach cb w = Ok (assign_events (Some (g <$> k)) w) ∧
  ∃ w', _forEach cb w = Ok w' ∧ children w' = g <$> k ∧
        heap w' = heap w ∧ dropped w' = dropped w ∧ fired w' = fired w.
Proof.
  intros Hk Hcb. split; [|split; [by apply forEach_map|]]; last first.
  { eexists. split; [by apply forEach_map|]. done. }
  unfold _forEach_visits, events_of. rewrite Hk. cbn [deref]. rewrite bind_Ok.
  rewrite <- (assign_events_self w k Hk) at 1.
  rewrite (forEach_loop_visits g cb w Hcb (length k) k) by done.
  rewrite bind_Ok. cbn [fst]. by rewrite firstn_all.
Qed.

Lemma forEach_walks_backwards_witness :
  _forEach_visits (λ event i w, Ok (set_event i (Event.stop 48 event) w)) playing
    = Ok (reverse (imap pair (children playing))) ∧
  _forEach (λ event i w, Ok (set_event i (Event.stop 48 event) w)) playing
    = Ok (assign_events (Some (Event.stop 48 <$> children playing)) playing) ∧
  ∃ w', _forEach (λ event i w, Ok (set_event i (Event.stop 48 event) w)) playing = Ok w' ∧
        children w' = Event.stop 48 <$> children playing ∧
        heap w' = heap playing ∧ dropped w' = dropped playing ∧ fired w' = fired playing.
Proof.
  apply (forEach_walks_backwards (Event.stop 48)
           (λ event i w, Ok (set_event i (Event.stop 48 event) w)) playing
           (children playing)); reflexivity.
Defined.

(** ** Lookup by time *)

Lemma near_test time tickTime e :
  negb (Qle_bool tickTime (inject_Z (Z.abs (time - Event.startOffset e)))) = true
  ↔ near time tickTime e.
Proof.
  unfold near. rewrite negb_true_iff, <- not_true_iff_false, Qle_bool_iff.
  split; [apply Qnot_le_lt|apply Qlt_not_le].
Qed.

Lemma at_search_spec time tickTime evs :
  ∀ i, match at_search time tickTime i evs with
       | Some (j, e) =>
           ∃ k : nat, j = (i + k)%nat ∧ evs !! k = Some e ∧ near time tickTime e ∧
                      Forall (λ x, ¬ near time tickTime x) (take k evs)
       | None => Forall (λ x, ¬ near time tickTime x) evs
       end.
Proof.
  induction evs as [|x evs IH]; intros i; simpl; [constructor|].
  destruct (negb _) eqn:Hx.
  - exists 0%nat. rewrite Nat.add_0_r. repeat split; [|constructor].
    by apply near_test.
  - assert (Hn : ¬ near time tickTime x).
    { intros Hn%near_test. congruence. }
    specialize (IH (S i)). destruct (at_search time tickTime (S i) evs) as [[j e]|].
    + destruct IH as (k & -> & Hk & Hnear & Hbefore).
      exists (S k). split; [lia|]. split; [done|]. split; [done|]. by constructor.
    + by constructor.
Qed.

Lemma at_search_found time tickTime evs (i : nat) e :
  evs !! i = Some e → near time tickTime e →
  Forall (λ x, ¬ near time tickTime x) (take i evs) →
  at_search time tickTime 0 evs = Some (i, e).
Proof.
  intros Hi Hnear Hbefore.
  pose proof (at_search_spec time tickTime evs 0) as H.
  destruct (at_search time tickTime 0 evs) as [[j x]|].
  - destruct H as (k & -> & Hk & Hx & Hk').
    destruct (Nat.lt_trichotomy k i) as [Hlt|[->|Hgt]].
    + exfalso. rewrite Forall_forall in Hbefore. apply (Hbefore x); [|done].
      apply list_elem_of_lookup. exists k. by rewrite lookup_take_lt.
    + simpl. congruence.
    + exfalso. rewrite Forall_forall in Hk'. apply (Hk' e); [|done].
      apply list_elem_of_lookup. exists i. by rewrite lookup_take_lt.
  - exfalso. rewrite Forall_forall in H. apply (H e); [|done].
    by eapply list_elem_of_lookup_2.
Qed.

(** X12: [at(time)] without a value only looks.  On a group whose child
    list is not [null] it leaves the world unchanged and returns the first
    child, in list order, whose start offset is less than one tick's
    duration away from the time, or [null] when no child is that near. *)
Theorem at_finds_first toTicks ticksToSeconds time c w evs :
  _events (this w) = Some evs →
  ∃ r,
    at_ toTicks ticksToSeconds time VUndef c w = Ok (r, w) ∧
    match r with
    | Some e =>
        ∃ i : nat, evs !! i = Some e ∧ near (toTicks time) (ticksToSeconds 1) e ∧
                   Forall (λ x, ¬ near (toTicks time) (ticksToSeconds 1) x) (take i evs)
    | None => Forall (λ x, ¬ near (toTicks time) (ticksToSeconds 1) x) evs
    end.
Proof.
  intros He. unfold at_, events_of. rewrite He. cbn [deref]. rewrite bind_Ok.
  pose proof (at_search_spec (toTicks time) (ticksToSeconds 1) evs 0) as H.
  destruct (at_search (toTicks time) (ticksToSeconds 1) 0 evs) as [[j e]|].
  - exists (Some e). split; [done|]. destruct H as (k & _ & ? & ? & ?). by exists k.
  - by exists None.
Qed.

Lemma at_finds_first_witness :
  ∃ r,
    at_ ticks_of seconds_of (VNum 96) VUndef at_rest playing = Ok (r, playing) ∧
    match r with
    | Some e =>
        ∃ i : nat, children playing !! i = Some e ∧
                   near (ticks_of (VNum 96)) (seconds_of 1) e ∧
                   Forall (λ x, ¬ near (ticks_of (VNum 96)) (seconds_of 1) x)
                     (take i (children playing))
    | None => Forall (λ x, ¬ near (ticks_of (VNum 96)) (seconds_of 1) x) (children playing)
    end.
Proof.
  apply (at_finds_first ticks_of seconds_of (VNum 96) at_rest playing (children playing)).
  reflexivity.
Defined.

(** X13: [at(time, value)] on a time that has a child overwrites the value
    of the first child near that time, in place, and returns that child; it
    adds no child and changes no other, and [at(time)] afterwards returns
    the child with the new value. *)
Theorem at_overwrites_first toTicks ticksToSeconds time value c c' w evs (i : nat) e :
  _events (this w) = Some evs →
  value ≠ VUndef →
  evs !! i = Some e → near (toTicks time) (ticksToSeconds 1) e →
  Forall (λ x, ¬ near (toTicks time) (ticksToSeconds 1) x) (take i evs) →
  ∃ w1,
    at_ toTicks ticksToSeconds time value c w = Ok (Some (Event.set_value value e), w1) ∧
    w1 = assign_events (Some (<[i := Event.set_value value e]> evs)) w ∧
    at_ toTicks ticksToSeconds time VUndef c' w1 = Ok (Some (Event.set_value value e), w1) ∧
    children w1 = <[i := Event.set_value value e]> evs ∧
    children w1 !! i = Some (Event.set_value value e) ∧
    Event.value (Event.set_value value e) = value ∧
    Event.startOffset (Event.set_value value e) = Event.startOffset e ∧
    Event.calls (Event.set_value value e) = Event.calls e ∧
    heap w1 = heap w ∧ _state (this w1) = _state (this w) ∧
    dropped w1 = dropped w ∧ fired w1 = fired w.
Proof.
  intros He Hv Hi Hnear Hbefore.
  exists (assign_events (Some (<[i := Event.set_value value e]> evs)) w).
  split; [|split; [reflexivity|split]]; last first.
  { split; [done|]. split; [|done].
    unfold children. simpl. apply list_lookup_insert_eq. by eapply lookup_lt_Some. }
  - unfold at_, events_of. simpl.
    rewrite (at_search_found _ _ (<[i := Event.set_value value e]> evs) i
               (Event.set_value value e)); [done| |done|].
    + apply list_lookup_insert_eq. by eapply lookup_lt_Some.
    + by rewrite take_insert_ge.
  - unfold at_, events_of. rewrite He. cbn [deref]. rewrite bind_Ok.
    rewrite (at_search_found _ _ evs i e Hi Hnear Hbefore).
    replace (negb (isUndef value)) with true by (by destruct value).
    unfold set_event. by rewrite He.
Qed.

Lemma at_overwrites_first_witness :
  ∃ w1,
    at_ ticks_of seconds_of (VNum 0) (VStr "D2") at_rest three_notes
      = Ok (Some (Event.set_value (VStr "D2")
                    (Event.set_startOffset 0
                       (Event.create Event.BoundTick (VStr "C2") 192))), w1) ∧
    w1 = assign_events
           (Some (<[0%nat := Event.set_value (VStr "D2")
                               (Event.set_startOffset 0
                                  (Event.create Event.BoundTick (VStr "C2") 192))]>
                    (children three_notes))) three_notes ∧
    at_ ticks_of seconds_of (VNum 0) VUndef at_rest w1
      = Ok (Some (Event.set_value (VStr "D2")
                    (Event.set_startOffset 0
                       (Event.create Event.BoundTick (VStr "C2") 192))), w1) ∧
    children w1
      = <[0%nat := Event.set_value (VStr "D2")
                     (Event.set_startOffset 0
                        (Event.create Event.BoundTick (VStr "C2") 192))]>
          (children three_notes) ∧
    children w1 !! 0%nat
      = Some (Event.set_value (VStr "D2")
                (Event.set_startOffset 0 (Event.create Event.BoundTick (VStr "C2") 192))) ∧
    Event.value (Event.set_value (VStr "D2")
                   (Event.set_startOffset 0 (Event.create Event.BoundTick (VStr "C2") 192)))
      = VStr "D2" ∧
    Event.startOffset
      (Event.set_value (VStr "D2")
         (Event.set_startOffset 0 (Event.create Event.BoundTick (VStr "C2") 192)))
      = Event.startOffset
          (Event.set_startOffset 0 (Event.create Event.BoundTick (VStr "C2") 192)) ∧
    Event.calls
      (Event.set_value (VStr "D2")
         (Event.set_startOffset 0 (Event.create Event.BoundTick (VStr "C2") 192)))
      = Event.calls (Event.set_startOffset 0 (Event.create Event.BoundTick (VStr "C2") 192)) ∧
    heap w1 = heap three_notes ∧ _state (this w1) = _state (this three_notes) ∧
    dropped w1 = dropped three_notes ∧ fired w1 = fired three_notes.
Proof.
  apply (at_overwrites_first ticks_of seconds_of (VNum 0) (VStr "D2") at_rest at_rest
           three_notes (children three_notes) 0%nat); try reflexivity.
  - intros [=].
  - constructor.
Defined.

(** X14: [at(time, value)] on a time that has no child makes one.  On a
    live group none of whose children is near the time, with a tick that
    lasts more than nothing and a conversion service that reads back the
    ticks notation, it appends one child with the value at that tick, as
    [add] does, and returns it; [at(time)] afterwards returns that child. *)
Theorem at_creates_child toTicks (ticksToSeconds : Z → Q) time value c w tl evs :
  _state (this w) = Some tl → _events (this w) = Some evs →
  value ≠ VUndef →
  (0 < ticksToSeconds 1%Z)%Q →
  toTicks (ticks_notation (toTicks time)) = toTicks time →
  Forall (λ x, ¬ near (toTicks time) (ticksToSeconds 1) x) evs →
  ∃ w1 e,
    at_ toTicks ticksToSeconds time value c w = Ok (Some e, w1) ∧
    add toTicks (ticks_notation (toTicks time)) (Raw value) c w = Ok w1 ∧
    children w1 = evs ++ [e] ∧
    Event.value e = value ∧ Event.startOffset e = toTicks time ∧
    heap w1 = heap w ∧
    ∀ c', at_ toTicks ticksToSeconds time VUndef c' w1 = Ok (Some e, w1).
Proof.
  intros Hs He Hv Hpos Hread Hfar.
  destruct (add_spec toTicks (ticks_notation (toTicks time)) (Raw value) c w tl evs Hs He)
    as (e0 & e' & Hadd & Hre & Hin & Hca).
  change (add_args (heap w) (ticks_notation (toTicks time)) (Raw value))
    with (ticks_notation (toTicks time), Raw value, heap w) in *.
  cbn [fst snd] in *.
  assert (Hoff : Event.startOffset e' = toTicks time).
  { rewrite (restartEvent_startOffset _ _ _ _ Hre). destruct Hin as (_ & -> & _). done. }
  assert (Hnone : at_search (toTicks time) (ticksToSeconds 1) 0 evs = None).
  { pose proof (at_search_spec (toTicks time) (ticksToSeconds 1) evs 0) as H.
    destruct (at_search _ _ 0 evs) as [[j x]|]; [|done].
    destruct H as (k & _ & Hk & Hx & _). exfalso.
    rewrite Forall_forall in Hfar. apply (Hfar x); [|done].
    by eapply list_elem_of_lookup_2. }
  eexists _, e'. split; [|split; [exact Hadd|]].
  - unfold at_, events_of. rewrite He. cbn [deref]. rewrite bind_Ok, Hnone.
    replace (negb (isUndef value)) with true by (by destruct value).
    rewrite Hadd, bind_Ok. simpl.
    rewrite length_app. simpl. rewrite Nat.add_sub.
    by rewrite list_lookup_middle.
  - split; [done|]. split.
    { rewrite (restartEvent_value _ _ _ _ Hre). by destruct Hca as [-> _]. }
    split; [done|]. split; [done|]. intros c'.
    unfold at_, events_of. simpl.
    rewrite (at_search_found _ _ (evs ++ [e']) (length evs) e'); [done| | |].
    + by apply list_lookup_middle.
    + unfold near. rewrite Hoff, Z.sub_diag. exact Hpos.
    + by rewrite take_app_length.
Qed.

Lemma at_creates_child_witness :
  ∃ w1 e,
    at_ ticks_i seconds_of (VNum 48) (VStr "E2") at_rest playing = Ok (Some e, w1) ∧
    add ticks_i (ticks_notation (ticks_i (VNum 48))) (Raw (VStr "E2")) at_rest playing
      = Ok w1 ∧
    children w1 = children playing ++ [e] ∧
    Event.value e = VStr "E2" ∧ Event.startOffset e = ticks_i (VNum 48) ∧
    heap w1 = heap playing ∧
    ∀ c', at_ ticks_i seconds_of (VNum 48) VUndef c' w1 = Ok (Some e, w1).
Proof.
  apply (at_creates_child ticks_i seconds_of (VNum 48) (VStr "E2") at_rest playing
           [Timeline.mk Started 0 0] (children playing)); try reflexivity.
  - intros [=].
  - repeat constructor; vm_compute; intros [=].
Defined.

(** ** Construction *)

Lemma add_before_start toTicks time value c w evs :
  _state (this w) = Some [] → _events (this w) = Some evs →
  ∃ e,
    add toTicks time value c w
      = Ok (assign_heap (add_args (heap w) time value).2
              (assign_events (Some (evs ++ [e])) w)) ∧
    inherits (this w) (toTicks (add_args (heap w) time value).1.1) e ∧
    carries (add_args (heap w) time value).1.2 e.
Proof.
  intros Hs He.
  destruct (add_spec toTicks time value c w [] evs Hs He) as (e0 & e' & Hadd & Hre & Hin & Hca).
  assert (e' = e0) as ->.
  { unfold _restartEvent in Hre. rewrite Hs in Hre. by injection Hre. }
  by exists e0.
Qed.

Lemma add_entries_spec toTicks c entries :
  ∀ w evs,
    _state (this w) = Some [] → _events (this w) = Some evs →
    ∃ h news,
      add_entries toTicks entries c w
        = Ok (assign_heap h (assign_events (Some (evs ++ news)) w)) ∧
      length news = length entries ∧
      Forall (λ e, Event.callback e = Event.BoundTick ∧ in_sync (this w) e) news ∧
      (Forall plain_entry entries →
         h = heap w ∧
         Forall2 (λ en e, Event.startOffset e = toTicks (entry_time en) ∧ Event.dormant e)
                 entries news).
Proof.
  induction entries as [|en entries IH]; intros w evs Hs He.
  - exists (heap w), []. rewrite app_nil_r. split.
    + simpl. f_equal. destruct w as [h [] d f]. simpl in *. by rewrite He.
    + split; [done|]. split; [constructor|]. by split; [|constructor].
  - set (time := entry_time en).
    set (value := match en with Pair _ v => v | Single _ => Raw VUndef end).
    destruct (add_before_start toTicks time value c w evs Hs He) as (e & Hadd & Hin & Hca).
    set (w1 := assign_heap (add_args (heap w) time value).2
                 (assign_events (Some (evs ++ [e])) w)) in *.
    destruct (IH w1 (evs ++ [e])) as (h & news & Hrun & Hlen & Hall & Hplain); [done|done|].
    exists h, (e :: news). split; [|split; [|split]].
    + assert (Hstep : add_entries toTicks (en :: entries) c w
                      = add toTicks time value c w ≫= add_entries toTicks entries c)
        by (by destruct en).
      rewrite Hstep, Hadd, bind_Ok, Hrun. rewrite <- app_assoc. done.
    + simpl. by rewrite Hlen.
    + constructor; [|exact Hall].
      destruct Hin as (I1 & I2 & I3 & I4 & I5 & I6 & I7). by repeat split.
    + intros Hpl. inversion Hpl as [|en' entries' [Hobj Hdorm] Hrest]; subst.
      assert (Hargs : add_args (heap w) time value = (time, value, heap w)).
      { unfold add_args, own_time. destruct time eqn:Ht; try done.
        by destruct (Hobj l). }
      destruct (Hplain Hrest) as [-> Hnews].
      split; [change (heap w1) with ((add_args (heap w) time value).2); by rewrite Hargs|].
      constructor; [|exact Hnews]. rewrite Hargs in Hin, Hca. cbn [fst snd] in *.
      split; [by destruct Hin as (_ & -> & _)|].
      destruct Hca as (_ & Hst & _). eapply dormant_same_state; [exact Hst|].
      unfold value. destruct en as [t [v|ev]|t]; done.
Qed.

(** X15: the constructor adds its events in order and starts none.  Given
    options with a list of events, [new Tone.Part] does not fault and yields
    a live group whose Timeline is empty, with one child per entry: every
    child has the group's [_tick] as its callback and the group's settings.
    When no entry's time is an object and no entry's value is an event with
    a trigger, the caller's heap is untouched, the children's start offsets
    are the converted times of the entries, in order, and no child has a
    trigger. *)
Theorem constructor_adds_entries toTicks options c h entries :
  opt_events options = Some entries →
  ∃ w,
    new_Part toTicks options c h = Ok w ∧
    _state (this w) = Some [] ∧ callback (this w) = Some (opt_callback options) ∧
    _startOffset (this w) = 0 ∧ dropped w = [] ∧ fired w = [] ∧
    get_length w = Ok (length entries) ∧
    Forall (λ e, Event.callback e = Event.BoundTick ∧ in_sync (this w) e) (children w) ∧
    (Forall plain_entry entries →
       heap w = h ∧
       Forall2 (λ en e, Event.startOffset e = toTicks (entry_time en) ∧ Event.dormant e)
               entries (children w)).
Proof.
  intros Hev. unfold new_Part. rewrite Hev. cbn [default].
  set (w0 := mkWorld h _ [] []).
  destruct (add_entries_spec toTicks c entries w0 []) as (h' & news & Hrun & Hlen & Hall & Hpl);
    [done|done|].
  eexists. split; [exact Hrun|]. do 5 (split; [done|]).
  split; [by unfold get_length; simpl; rewrite Hlen|].
  split; [exact Hall|exact Hpl].
Qed.

Lemma constructor_adds_entries_witness :
  Forall plain_entry
    [Pair (VNum 0) (Raw (VStr "C2")); Pair (VNum 96) (Raw (VStr "C3")); Single (VNum 144)] ∧
  ∃ w,
    new_Part ticks_of
      (mkOptions 7%nat
         (Some [Pair (VNum 0) (Raw (VStr "C2")); Pair (VNum 96) (Raw (VStr "C3"));
                Single (VNum 144)])
         (VBool false) (VNum 0) (VStr "1m") 1 1 (VBool false) false)
      at_rest {[ 0%nat := note_object ]} = Ok w ∧
    _state (this w) = Some [] ∧ callback (this w) = Some 7%nat ∧
    _startOffset (this w) = 0 ∧ dropped w = [] ∧ fired w = [] ∧
    get_length w = Ok 3%nat ∧
    Forall (λ e, Event.callback e = Event.BoundTick ∧ in_sync (this w) e) (children w) ∧
    heap w = {[ 0%nat := note_object ]} ∧
    Forall2 (λ en e, Event.startOffset e = ticks_of (entry_time en) ∧ Event.dormant e)
            [Pair (VNum 0) (Raw (VStr "C2")); Pair (VNum 96) (Raw (VStr "C3"));
             Single (VNum 144)] (children w).
Proof.
  assert (Hplain : Forall plain_entry
            [Pair (VNum 0) (Raw (VStr "C2")); Pair (VNum 96) (Raw (VStr "C3"));
             Single (VNum 144)]).
  { repeat (constructor; [by split|]). constructor. }
  split; [exact Hplain|].
  destruct (constructor_adds_entries ticks_of
              (mkOptions 7%nat
                 (Some [Pair (VNum 0) (Raw (VStr "C2")); Pair (VNum 96) (Raw (VStr "C3"));
                        Single (VNum 144)])
                 (VBool false) (VNum 0) (VStr "1m") 1 1 (VBool false) false)
              at_rest {[ 0%nat := note_object ]} _ eq_refl)
    as (w & H1 & H2 & H3 & H4 & H5 & H6 & H7 & H8 & H9).
  destruct (H9 Hplain) as [H10 H11].
  exists w. do 8 (split; [assumption|]). split; assumption.
Defined.


